(** * HexCrypto: the hex cipher of the web3 playground

    A shallow embedding of the [HexCrypto] class (key derivation, the
    per-byte XOR / rotation transform, hex encoding and the [0xENC1] chain
    tag) together with the parts of the Node.js runtime it calls: 32-bit
    integer operators, [Buffer] hex and UTF-8 conversions and the SHA-256
    digest.

    Conventions:
    - a JavaScript string is the list of its UTF-16 code units, each a [Z]
      in [0, 65535];
    - a [Buffer] is a list of bytes, each a [Z] in [0, 255];
    - the salt that [crypto.randomBytes(8)] draws and the clock value that
      [Date.now()] reads are explicit arguments;
    - a method that may fail returns a [completion]. *)

From Stdlib Require Import ZArith String Ascii List Lia Bool.
From stdpp Require Import base list.
Import ListNotations.
Open Scope Z_scope.

(* ===================================================================== *)
(** * Part I: definitions                                                 *)
(* ===================================================================== *)

(** ** JavaScript values *)

Abbreviation jsstring := (list Z) (only parsing).
Abbreviation buffer := (list Z) (only parsing).

(** An ASCII literal as a JavaScript string. *)
Definition js (s : string) : jsstring :=
  map (fun a => Z.of_N (N_of_ascii a)) (list_ascii_of_string s).

Definition is_byte (b : Z) : bool := (0 <=? b) && (b <? 256).
Definition is_code_unit (u : Z) : bool := (0 <=? u) && (u <? 65536).
Definition all_bytes (buf : buffer) : bool := forallb is_byte buf.

(** Errors of the specification's taxonomy. The source has no [throw]. *)
Inductive js_error : Type :=
| DecodeError
| FormatError
| RandomSourceError.

Inductive completion (A : Type) : Type :=
| Normal (a : A)
| Throw (e : js_error).
Arguments Normal {A} a.
Arguments Throw {A} e.

Definition bind {A B} (c : completion A) (k : A -> completion B) : completion B :=
  match c with
  | Normal a => k a
  | Throw e => Throw e
  end.

Notation "'do' x <- c ; k" := (bind c (fun x => k))
  (at level 10, x name, c at level 100, k at level 200).

(** ** 32-bit integer operators

    The bitwise operators convert their operands with ToInt32 and give a
    signed 32-bit result; a shift count is taken modulo 32. *)
Module Int32.

Definition wrap (x : Z) : Z := (x + 2 ^ 31) mod 2 ^ 32 - 2 ^ 31.

(** [a ^ b] *)
Definition xor (a b : Z) : Z := Z.lxor (wrap a) (wrap b).
(** [a | b] *)
Definition or (a b : Z) : Z := Z.lor (wrap a) (wrap b).
(** [a & b] *)
Definition and (a b : Z) : Z := Z.land (wrap a) (wrap b).
(** [a << n] *)
Definition shl (a n : Z) : Z := wrap (Z.shiftl (wrap a) (n mod 32)).
(** [a >> n], sign propagating *)
Definition shr (a n : Z) : Z := Z.shiftr (wrap a) (n mod 32).

End Int32.

(** ** Buffers *)

(** [Buffer.alloc(n)]: [n] zero bytes. *)
Definition Buffer_alloc (n : nat) : buffer := replicate n 0.

(** [buf[i]] read where the result feeds a bitwise operator: an index
    past the end reads [undefined], which ToInt32 turns into 0. *)
Definition buf_get (buf : buffer) (i : nat) : Z := default 0 (buf !! i).

(** [buf[i % buf.length]]: with an empty buffer the index is [NaN] and the
    read is [undefined], again 0 under ToInt32. *)
Definition buf_get_mod (buf : buffer) (i : nat) : Z :=
  match length buf with
  | O => 0
  | n => buf_get buf (i mod n)%nat
  end.

(** [buf[i] = v]: the value is stored modulo 256; a store past the end is
    ignored. *)
Definition buf_set (buf : buffer) (i : nat) (v : Z) : buffer :=
  <[i := v mod 256]> buf.

(** [for (let i = start; ...; i++) body], run for [steps] iterations. *)
Fixpoint for_from {St : Type} (start steps : nat) (body : nat -> St -> St) (s : St) : St :=
  match steps with
  | O => s
  | S k => for_from (S start) k body (body start s)
  end.

(** [for (let i = 0; i < n; i++) body] *)
Definition for_loop {St : Type} (n : nat) (body : nat -> St -> St) (s : St) : St :=
  for_from 0 n body s.

(** ** Strings *)

(** [s.startsWith(prefix)] *)
Fixpoint startsWith (s prefix : jsstring) {struct prefix} : bool :=
  match prefix, s with
  | [], _ => true
  | p :: ps, c :: cs => (c =? p) && startsWith cs ps
  | _ :: _, [] => false
  end.

(** [s.slice(n)] for a constant [n >= 0] *)
Definition slice (n : nat) (s : jsstring) : jsstring := drop n s.

(** ** Hexadecimal: [buf.toString('hex')] and [Buffer.from(s, 'hex')] *)

Definition hex_digit (d : Z) : Z := if d <? 10 then 48 + d else 87 + d.

Definition hex_encode (buf : buffer) : jsstring :=
  flat_map (fun b => [hex_digit (b / 16); hex_digit (b mod 16)]) buf.

(** The table of the decoder, indexed by a byte: the value of a hex digit
    in either case, nothing for any other byte. *)
Definition unhex_table (b : Z) : option Z :=
  if (48 <=? b) && (b <=? 57) then Some (b - 48)
  else if (65 <=? b) && (b <=? 70) then Some (b - 55)
  else if (97 <=? b) && (b <=? 102) then Some (b - 87)
  else None.

(** The decoder narrows every UTF-16 code unit to its low 8 bits before it
    looks it up: U+0132 reads as [2] (0x32) and U+0166 as [f] (0x66). *)
Definition unhex (c : Z) : option Z := unhex_table (c mod 256).

(** A character the decoder takes for a hex digit. *)
Definition is_hex (c : Z) : bool :=
  match unhex c with Some _ => true | None => false end.

(** The bytes of the hex digits: [0-9], [A-F] and [a-f]. *)
Definition is_hex_digit_byte (b : Z) : bool :=
  ((48 <=? b) && (b <=? 57)) || ((65 <=? b) && (b <=? 70))
  || ((97 <=? b) && (b <=? 102)).

(** The decoder reads two characters at a time and stops at the first pair
    holding a character it does not take for a hex digit; a last unpaired
    character is dropped. It never fails. *)
Fixpoint hex_decode (s : jsstring) : buffer :=
  match s with
  | a :: b :: rest =>
      match unhex a, unhex b with
      | Some x, Some y => (16 * x + y) :: hex_decode rest
      | _, _ => []
      end
  | _ => []
  end.

Definition Buffer_from_hex (s : jsstring) : completion buffer :=
  Normal (hex_decode s).

(** The longest prefix of [s] made of complete pairs of characters the
    decoder takes for hex digits. *)
Fixpoint hex_pairs_prefix (s : jsstring) : jsstring :=
  match s with
  | a :: b :: rest =>
      if is_hex a && is_hex b then a :: b :: hex_pairs_prefix rest else []
  | _ => []
  end.

(** What may follow that prefix: nothing, one character, or a pair with a
    character the decoder does not take for a hex digit. *)
Definition stops_decoding (tail : jsstring) : bool :=
  match tail with
  | a :: b :: _ => negb (is_hex a && is_hex b)
  | _ => true
  end.

(** ** UTF-8: [Buffer.from(s, 'utf8')] and [buf.toString('utf8')] *)
Module Utf8.

Definition is_high (u : Z) : bool := (0xD800 <=? u) && (u <=? 0xDBFF).
Definition is_low (u : Z) : bool := (0xDC00 <=? u) && (u <=? 0xDFFF).

Definition replacement : Z := 0xFFFD.

(** A Unicode scalar value: a code point that is no surrogate. *)
Definition is_scalar (c : Z) : Prop :=
  0 <= c < 0x110000 /\ ~ (0xD800 <= c <= 0xDFFF).

(** The UTF-8 bytes of one code point. *)
Definition bytes_of_cp (c : Z) : buffer :=
  if c <? 0x80 then [c]
  else if c <? 0x800 then [0xC0 + c / 64; 0x80 + c mod 64]
  else if c <? 0x10000 then
    [0xE0 + c / 4096; 0x80 + (c / 64) mod 64; 0x80 + c mod 64]
  else
    [0xF0 + c / 262144; 0x80 + (c / 4096) mod 64;
     0x80 + (c / 64) mod 64; 0x80 + c mod 64].

(** The UTF-16 code units of one code point. *)
Definition units_of_cp (c : Z) : jsstring :=
  if c <? 0x10000 then [c]
  else [0xD800 + (c - 0x10000) / 1024; 0xDC00 + (c - 0x10000) mod 1024].

(** The encoder pairs a high surrogate with the low surrogate after it;
    a surrogate left alone is written as U+FFFD. *)
Fixpoint encode (s : jsstring) : buffer :=
  match s with
  | [] => []
  | u :: rest =>
      if is_high u then
        match rest with
        | v :: rest' =>
            if is_low v then
              bytes_of_cp (0x10000 + (u - 0xD800) * 1024 + (v - 0xDC00))
                ++ encode rest'
            else bytes_of_cp replacement ++ encode rest
        | [] => bytes_of_cp replacement
        end
      else if is_low u then bytes_of_cp replacement ++ encode rest
      else bytes_of_cp u ++ encode rest
  end.

(** A string the encoder does not change: code units in range and every
    surrogate paired. *)
Fixpoint well_formed (s : jsstring) : bool :=
  match s with
  | [] => true
  | u :: rest =>
      if is_high u then
        match rest with
        | v :: rest' => is_low v && well_formed rest'
        | [] => false
        end
      else negb (is_low u) && is_code_unit u && well_formed rest
  end.

(** The decoder is the automaton of the Encoding standard: between
    characters it is [Idle]; inside one it holds the bits read so far,
    the number of continuation bytes still due and the range allowed for
    the next byte. *)
Inductive state : Type :=
| Idle
| Pending (cp : Z) (due : nat) (lo hi : Z).

Inductive emission : Type :=
| Nothing
| Scalar (c : Z)
| Malformed.

(** A byte read in state [Idle]. *)
Definition lead (b : Z) : state * emission :=
  if b <=? 0x7F then (Idle, Scalar b)
  else if (0xC2 <=? b) && (b <=? 0xDF) then
    (Pending (b - 0xC0) 1 0x80 0xBF, Nothing)
  else if (0xE0 <=? b) && (b <=? 0xEF) then
    (Pending (b - 0xE0) 2
       (if b =? 0xE0 then 0xA0 else 0x80)
       (if b =? 0xED then 0x9F else 0xBF), Nothing)
  else if (0xF0 <=? b) && (b <=? 0xF4) then
    (Pending (b - 0xF0) 3
       (if b =? 0xF0 then 0x90 else 0x80)
       (if b =? 0xF4 then 0x8F else 0xBF), Nothing)
  else (Idle, Malformed).

(** A byte out of range inside a character ends it as malformed and is
    read again as a lead byte; input ending inside a character is
    malformed too. *)
Fixpoint run (st : state) (bs : buffer) : list emission :=
  match bs with
  | [] =>
      match st with
      | Idle => []
      | Pending _ _ _ _ => [Malformed]
      end
  | b :: rest =>
      match st with
      | Idle => snd (lead b) :: run (fst (lead b)) rest
      | Pending c due lo hi =>
          if (lo <=? b) && (b <=? hi) then
            let c' := c * 64 + (b - 0x80) in
            match due with
            | S (S d) => Nothing :: run (Pending c' (S d) 0x80 0xBF) rest
            | _ => Scalar c' :: run Idle rest
            end
          else Malformed :: snd (lead b) :: run (fst (lead b)) rest
      end
  end.

(** What the automaton reports while it reads the bytes of the scalar
    value [c]: nothing until the last byte, then [c]. *)
Definition emissions_of_cp (c : Z) : list emission :=
  repeat Nothing (length (bytes_of_cp c) - 1) ++ [Scalar c].

Definition units_of_emission (e : emission) : jsstring :=
  match e with
  | Nothing => []
  | Scalar c => units_of_cp c
  | Malformed => [replacement]
  end.

(** [buf.toString('utf8')]: every malformed sequence becomes U+FFFD. *)
Definition decode (bs : buffer) : jsstring :=
  flat_map units_of_emission (run Idle bs).

Definition is_malformed (e : emission) : bool :=
  match e with Malformed => true | _ => false end.

(** The bytes are valid UTF-8 when the automaton never reports a
    malformed sequence. *)
Definition valid (bs : buffer) : bool :=
  forallb (fun e => negb (is_malformed e)) (run Idle bs).

End Utf8.

Definition Buffer_from_utf8 (s : jsstring) : buffer := Utf8.encode s.

Definition Buffer_toString_utf8 (buf : buffer) : completion jsstring :=
  Normal (Utf8.decode buf).

(** ** SHA-256: [crypto.createHash('sha256').update(m).digest()]

    The digest of FIPS 180-4 over 32-bit words kept in [0, 2^32). *)
Module Sha256.

Definition word (x : Z) : Z := x mod 2 ^ 32.
Definition add (a b : Z) : Z := word (a + b).
Definition rotr (n x : Z) : Z :=
  Z.lor (Z.shiftr x n) (word (Z.shiftl x (32 - n))).
Definition shr (n x : Z) : Z := Z.shiftr x n.
Definition not32 (x : Z) : Z := Z.lxor x 0xFFFFFFFF.

Definition Ch (x y z : Z) : Z := Z.lxor (Z.land x y) (Z.land (not32 x) z).
Definition Maj (x y z : Z) : Z :=
  Z.lxor (Z.lxor (Z.land x y) (Z.land x z)) (Z.land y z).
Definition Sigma0 (x : Z) : Z :=
  Z.lxor (Z.lxor (rotr 2 x) (rotr 13 x)) (rotr 22 x).
Definition Sigma1 (x : Z) : Z :=
  Z.lxor (Z.lxor (rotr 6 x) (rotr 11 x)) (rotr 25 x).
Definition sigma0 (x : Z) : Z :=
  Z.lxor (Z.lxor (rotr 7 x) (rotr 18 x)) (shr 3 x).
Definition sigma1 (x : Z) : Z :=
  Z.lxor (Z.lxor (rotr 17 x) (rotr 19 x)) (shr 10 x).

(** The constants are cut from irrational numbers: word [t] of [K] is the
    first 32 bits of the fractional part of the cube root of the [t]-th
    prime, and the initial hash value uses the square roots of the first
    eight primes in the same way. *)
Definition is_prime (n : nat) : bool :=
  forallb (fun d => negb (n mod d =? 0)%nat) (seq 2 (n - 2)).

Definition primes : list Z := map Z.of_nat (filter is_prime (seq 2 310)).

(** The integer cube root by bisection: [lo ^ 3 <= n < hi ^ 3] throughout. *)
Fixpoint cbrt_between (fuel : nat) (lo hi n : Z) : Z :=
  match fuel with
  | O => lo
  | S f =>
      let mid := (lo + hi) / 2 in
      if mid * mid * mid <=? n then cbrt_between f mid hi n
      else cbrt_between f lo mid n
  end.

Definition frac_cbrt (p : Z) : Z := word (cbrt_between 40 0 (2 ^ 36) (p * 2 ^ 96)).
Definition frac_sqrt (p : Z) : Z := word (Z.sqrt (p * 2 ^ 64)).

Definition K : list Z := Eval vm_compute in map frac_cbrt primes.

(** The eight working words. *)
Record regs : Type := Regs { ra : Z; rb : Z; rc : Z; rd : Z;
                             re : Z; rf : Z; rg : Z; rh : Z }.

Definition H0 : regs :=
  Eval vm_compute in
    Regs (frac_sqrt 2) (frac_sqrt 3) (frac_sqrt 5) (frac_sqrt 7)
         (frac_sqrt 11) (frac_sqrt 13) (frac_sqrt 17) (frac_sqrt 19).

(** Big-endian bytes of a 32-bit word and of a 64-bit length. *)
Definition be32 (w : Z) : buffer :=
  [(w / 2 ^ 24) mod 256; (w / 2 ^ 16) mod 256; (w / 2 ^ 8) mod 256; w mod 256].
Definition be64 (n : Z) : buffer := be32 (n / 2 ^ 32) ++ be32 (n mod 2 ^ 32).

(** Padding: a 1 bit, zero bits up to 56 modulo 64 bytes, then the length
    of the message in bits. *)
Definition pad (msg : buffer) : buffer :=
  let len := length msg in
  let zeros := ((119 - len mod 64) mod 64)%nat in
  msg ++ [0x80] ++ replicate zeros 0 ++ be64 (8 * Z.of_nat len).

(** Big-endian words of a block. *)
Fixpoint words (bs : buffer) : list Z :=
  match bs with
  | b0 :: b1 :: b2 :: b3 :: rest =>
      (((b0 * 256 + b1) * 256 + b2) * 256 + b3) :: words rest
  | _ => []
  end.

(** The message schedule, newest word first: [rev] holds [W t-1 .. W 0]. *)
Definition next_word (rev : list Z) : Z :=
  add (add (sigma1 (nth 1 rev 0)) (nth 6 rev 0))
      (add (sigma0 (nth 14 rev 0)) (nth 15 rev 0)).

Fixpoint extend (n : nat) (rev : list Z) : list Z :=
  match n with
  | O => rev
  | S k => extend k (next_word rev :: rev)
  end.

Definition schedule (block : buffer) : list Z :=
  List.rev (extend 48 (List.rev (words block))).

Definition round (r : regs) (kw : Z * Z) : regs :=
  let t1 := add (add (add (add (rh r) (Sigma1 (re r))) (Ch (re r) (rf r) (rg r)))
                     (fst kw)) (snd kw) in
  let t2 := add (Sigma0 (ra r)) (Maj (ra r) (rb r) (rc r)) in
  Regs (add t1 t2) (ra r) (rb r) (rc r) (add (rd r) t1) (re r) (rf r) (rg r).

Definition compress (h : regs) (block : buffer) : regs :=
  let r := fold_left round (combine K (schedule block)) h in
  Regs (add (ra h) (ra r)) (add (rb h) (rb r)) (add (rc h) (rc r))
       (add (rd h) (rd r)) (add (re h) (re r)) (add (rf h) (rf r))
       (add (rg h) (rg r)) (add (rh h) (rh r)).

Fixpoint blocks (n : nat) (h : regs) (bs : buffer) : regs :=
  match n with
  | O => h
  | S k => blocks k (compress h (take 64 bs)) (drop 64 bs)
  end.

Definition output (h : regs) : buffer :=
  be32 (ra h) ++ be32 (rb h) ++ be32 (rc h) ++ be32 (rd h) ++
  be32 (re h) ++ be32 (rf h) ++ be32 (rg h) ++ be32 (rh h).

Definition digest (msg : buffer) : buffer :=
  let padded := pad msg in
  output (blocks (length padded / 64)%nat H0 padded).

End Sha256.

(** ** The class [HexCrypto] *)

(** [update] takes a string, hashed as its UTF-8 bytes, or a buffer. *)
Inductive secret : Type :=
| SecretString (s : jsstring)
| SecretBytes (b : buffer).

Definition secret_bytes (sk : secret) : buffer :=
  match sk with
  | SecretString s => Buffer_from_utf8 s
  | SecretBytes b => b
  end.

Record HexCrypto : Type := { key : buffer }.

(** [constructor(secretKey)] *)
Definition constructor (secretKey : secret) : HexCrypto :=
  {| key := Sha256.digest (secret_bytes secretKey) |}.

(** [((byte << shift) | (byte >> (8 - shift))) & 0xff] *)
Definition rotate_left (byte shift : Z) : Z :=
  Int32.and (Int32.or (Int32.shl byte shift) (Int32.shr byte (8 - shift))) 0xff.

(** [((byte >> shift) | (byte << (8 - shift))) & 0xff] *)
Definition rotate_right (byte shift : Z) : Z :=
  Int32.and (Int32.or (Int32.shr byte shift) (Int32.shl byte (8 - shift))) 0xff.

(** [(i % 7) + 1] *)
Definition shift_of (i : nat) : Z := Z.of_nat (i mod 7) + 1.

(** The body of the loop of [encrypt] at index [i], up to the store. *)
Definition encrypt_byte (key salt plaintextBuffer : buffer) (i : nat) : Z :=
  let byte := Int32.xor (buf_get plaintextBuffer i) (buf_get_mod key i) in
  let byte := Int32.xor byte (buf_get_mod salt i) in
  let shift := shift_of i in
  rotate_left byte shift.

Definition encrypt_loop (key salt plaintextBuffer : buffer) : buffer :=
  for_loop (length plaintextBuffer)
    (fun i encrypted => buf_set encrypted i (encrypt_byte key salt plaintextBuffer i))
    (Buffer_alloc (length plaintextBuffer)).

(** [encrypt(plaintext)], with the salt of [crypto.randomBytes(8)]. *)
Definition encrypt (self : HexCrypto) (salt : buffer) (plaintext : jsstring) : jsstring :=
  let plaintextBuffer := Buffer_from_utf8 plaintext in
  let encrypted := encrypt_loop (key self) salt plaintextBuffer in
  let result := salt ++ encrypted in
  js "0x" ++ hex_encode result.

(** The body of the loop of [decrypt] at index [i], up to the store. *)
Definition decrypt_byte (key salt encrypted : buffer) (i : nat) : Z :=
  let byte := buf_get encrypted i in
  let shift := shift_of i in
  let byte := rotate_right byte shift in
  let byte := Int32.xor byte (buf_get_mod salt i) in
  Int32.xor byte (buf_get_mod key i).

Definition decrypt_loop (key salt encrypted : buffer) : buffer :=
  for_loop (length encrypted)
    (fun i decrypted => buf_set decrypted i (decrypt_byte key salt encrypted i))
    (Buffer_alloc (length encrypted)).

(** The [0x] prefix is dropped when present. *)
Definition strip_0x (hexString : jsstring) : jsstring :=
  if startsWith hexString (js "0x") then slice 2 hexString else hexString.

(** The decode step of [decrypt]: the hex digits become bytes, the first
    eight are the salt and the rest the encrypted data. *)
Definition decode (hexString : jsstring) : completion (buffer * buffer) :=
  let hex := strip_0x hexString in
  do data <- Buffer_from_hex hex;
  let salt := take 8 data in
  let encrypted := drop 8 data in
  Normal (salt, encrypted).

(** The bytes [decrypt] recovers before it turns them into a string. *)
Definition recovered_bytes (self : HexCrypto) (hexString : jsstring) : buffer :=
  let data := hex_decode (strip_0x hexString) in
  decrypt_loop (key self) (take 8 data) (drop 8 data).

(** [decrypt(hexString)] *)
Definition decrypt (self : HexCrypto) (hexString : jsstring) : completion jsstring :=
  do parts <- decode hexString;
  let salt := fst parts in
  let encrypted := snd parts in
  let decrypted := decrypt_loop (key self) salt encrypted in
  Buffer_toString_utf8 decrypted.

(** [HexCrypto.stringToHex(str)] *)
Definition stringToHex (str : jsstring) : jsstring :=
  js "0x" ++ hex_encode (Buffer_from_utf8 str).

(** [HexCrypto.hexToString(hex)] *)
Definition hexToString (hex : jsstring) : completion jsstring :=
  let cleanHex := strip_0x hex in
  do data <- Buffer_from_hex cleanHex;
  Buffer_toString_utf8 data.

(** The tag swap of [encryptForChain]: ['0xENC1' + encrypted.slice(2)]. *)
Definition toChainTag (encrypted : jsstring) : jsstring :=
  js "0xENC1" ++ slice 2 encrypted.

(** The tag swap of [decryptFromChain]. *)
Definition fromChainTag (chainData : jsstring) : jsstring :=
  if startsWith chainData (js "0xENC1") then js "0x" ++ slice 6 chainData
  else chainData.

Record chain_message : Type := {
  data : jsstring;
  chainData : jsstring;
  originalLength : nat;
  timestamp : Z
}.

(** [encryptForChain(message)], with the salt drawn by [encrypt] and the
    value of [Date.now()]. *)
Definition encryptForChain (self : HexCrypto) (salt : buffer) (now : Z)
    (message : jsstring) : chain_message :=
  let encrypted := encrypt self salt message in
  {| data := encrypted;
     chainData := toChainTag encrypted;
     originalLength := length message;
     timestamp := now |}.

(** [decryptFromChain(chainData)] *)
Definition decryptFromChain (self : HexCrypto) (chainData : jsstring) : completion jsstring :=
  decrypt self (fromChainTag chainData).

(** What [crypto.randomBytes(8)] returns: eight bytes. *)
Definition is_salt (salt : buffer) : bool :=
  (length salt =? 8)%nat && all_bytes salt.

(** ** The cipher byte in the words of the specification

    Step 4.2 on unbounded integers: XOR with [key[i mod 32]], XOR with
    [salt[i mod 8]], then the left rotation within 8 bits by
    [(i mod 7) + 1]. *)
Definition spec_rotl8 (b shift : Z) : Z :=
  Z.land (Z.lor (Z.shiftl b shift) (Z.shiftr b (8 - shift))) 0xFF.

Definition spec_cipher_byte (key salt plaintext : buffer) (i : nat) : Z :=
  let b := Z.lxor (nth i plaintext 0) (nth (i mod 32) key 0) in
  let b := Z.lxor b (nth (i mod 8) salt 0) in
  spec_rotl8 b (Z.of_nat (i mod 7) + 1).

(** A circular left rotation of a byte in arithmetic: the low bits move
    up and the bits pushed out come back at the bottom. *)
Definition rotl8_arith (b shift : Z) : Z :=
  (b * 2 ^ shift) mod 256 + b / 2 ^ (8 - shift).

(** The digits [buf.toString('hex')] writes: [0-9] and [a-f]. *)
Definition is_lower_hex (c : Z) : bool :=
  ((48 <=? c) && (c <=? 57)) || ((97 <=? c) && (c <=? 102)).

(** ** Enumerations and proof automation *)

(** The 256 bytes and the seven shifts [(i % 7) + 1] can take. *)
Definition byte_values : list Z := map Z.of_nat (seq 0 256).
Definition shift_values : list Z := [1; 2; 3; 4; 5; 6; 7].

(** Turns boolean comparisons in the hypotheses into propositions. *)
Ltac cmp_cases :=
  repeat match goal with
         | H : _ && _ = true |- _ => apply andb_true_iff in H as [? ?]
         | H : _ && _ = false |- _ => apply andb_false_iff in H as [?|?]
         | H : negb _ = true |- _ => apply negb_true_iff in H
         | H : (_ <=? _) = true |- _ => apply Z.leb_le in H
         | H : (_ <=? _) = false |- _ => apply Z.leb_gt in H
         | H : (_ <? _) = true |- _ => apply Z.ltb_lt in H
         | H : (_ <? _) = false |- _ => apply Z.ltb_ge in H
         | H : (_ =? _) = true |- _ => apply Z.eqb_eq in H
         | H : (_ =? _) = false |- _ => apply Z.eqb_neq in H
         end.

(** Rewrites a comparison whose outcome follows from the hypotheses. *)
Ltac settle_cmp :=
  repeat match goal with
         | |- context [?a <=? ?b] =>
             first [ replace (a <=? b) with true by (symmetry; apply Z.leb_le; lia)
                   | replace (a <=? b) with false by (symmetry; apply Z.leb_gt; lia) ]
         | |- context [?a <? ?b] =>
             first [ replace (a <? b) with true by (symmetry; apply Z.ltb_lt; lia)
                   | replace (a <? b) with false by (symmetry; apply Z.ltb_ge; lia) ]
         | |- context [?a =? ?b] =>
             first [ replace (a =? b) with true by (symmetry; apply Z.eqb_eq; lia)
                   | replace (a =? b) with false by (symmetry; apply Z.eqb_neq; lia) ]
         end.

(** ** Notions used to state further properties *)

(** What a round trip through UTF-8 makes of a string: every surrogate
    left unpaired becomes U+FFFD, the rest is unchanged. *)
Fixpoint sanitize (s : jsstring) : jsstring :=
  match s with
  | [] => []
  | u :: rest =>
      if Utf8.is_high u then
        match rest with
        | v :: rest' =>
            if Utf8.is_low v then u :: v :: sanitize rest'
            else Utf8.replacement :: sanitize rest
        | [] => [Utf8.replacement]
        end
      else if Utf8.is_low u then Utf8.replacement :: sanitize rest
      else u :: sanitize rest
  end.

(** An ASCII string: every code unit below 128. *)
Definition is_ascii (s : jsstring) : bool :=
  forallb (fun u => (0 <=? u) && (u <? 128)) s.

(** The upper-case form of a hex letter [a-f]; other characters stay. *)
Definition hex_upper (c : Z) : Z :=
  if (97 <=? c) && (c <=? 102) then c - 32 else c.

(** The states the UTF-8 automaton can be in while it reads bytes, with
    the code point bits [c] it can hold when [due] bytes are due. *)
Definition state_ok (st : Utf8.state) : Prop :=
  match st with
  | Utf8.Idle => True
  | Utf8.Pending c 1 lo hi =>
      lo = 0x80 /\ hi = 0xBF /\ 2 <= c <= 0x43FF /\ ~ (864 <= c <= 895)
  | Utf8.Pending c 2 lo hi =>
      (0 <= c <= 15
       /\ lo = (if c =? 0 then 0xA0 else 0x80)
       /\ hi = (if c =? 13 then 0x9F else 0xBF))
      \/ (16 <= c <= 271 /\ lo = 0x80 /\ hi = 0xBF)
  | Utf8.Pending c 3 lo hi =>
      0 <= c <= 4
      /\ lo = (if c =? 0 then 0x90 else 0x80)
      /\ hi = (if c =? 4 then 0x8F else 0xBF)
  | Utf8.Pending _ _ _ _ => False
  end.

(** The bytes of the character the automaton is inside of, read back from
    the bits it holds. *)
Definition consumed (st : Utf8.state) : buffer :=
  match st with
  | Utf8.Idle => []
  | Utf8.Pending c 1 _ _ =>
      if c <? 32 then [0xC0 + c]
      else if c <? 1024 then [0xE0 + c / 64; 0x80 + c mod 64]
      else [0xF0 + c / 4096; 0x80 + (c / 64) mod 64; 0x80 + c mod 64]
  | Utf8.Pending c 2 _ _ =>
      if c <? 16 then [0xE0 + c] else [0xF0 + c / 64; 0x80 + c mod 64]
  | Utf8.Pending c _ _ _ => [0xF0 + c]
  end.

Definition clean (es : list Utf8.emission) : bool :=
  forallb (fun e => negb (Utf8.is_malformed e)) es.

(* ===================================================================== *)
(** * Part II: properties                                                 *)
(* ===================================================================== *)

Example sha256_constants :
  length Sha256.K = 64%nat
  /\ nth 0 Sha256.K 0 = 0x428a2f98 /\ nth 63 Sha256.K 0 = 0xc67178f2
  /\ Sha256.ra Sha256.H0 = 0x6a09e667 /\ Sha256.rh Sha256.H0 = 0x5be0cd19.
Proof. repeat split. Qed.

Example sha256_empty :
  Sha256.digest [] = hex_decode (js "e3b0c44298fc1c149afbf4c8996fb92427ae41e4649b934ca495991b7852b855").
Proof. vm_compute. reflexivity. Qed.

Example sha256_abc :
  Sha256.digest (Buffer_from_utf8 (js "abc")) = hex_decode (js "ba7816bf8f01cfea414140de5dae2223b00361a396177a9cb410ff61f20015ad").
Proof. vm_compute. reflexivity. Qed.

Example sha256_test :
  Sha256.digest (Buffer_from_utf8 (js "test")) = hex_decode (js "9f86d081884c7d659a2feaa0c55ad015a3bf4f1b2b0b822cd15d6c15b0f00a08").
Proof. vm_compute. reflexivity. Qed.

Example sha256_two_blocks :
  Sha256.digest (Buffer_from_utf8 (js "abcdbcdecdefdefgefghfghighijhijkijkljklmklmnlmnomnopnopq")) = hex_decode (js "248d6a61d20638b8e5c026930c3e6039a33ce45964ff2167f6ecedd419db06c1").
Proof. vm_compute. reflexivity. Qed.

(** ** Bytes and the 32-bit operators *)

Lemma is_byte_spec (b : Z) : is_byte b = true <-> 0 <= b < 256.
Proof. unfold is_byte. rewrite andb_true_iff, Z.leb_le, Z.ltb_lt. tauto. Qed.

Lemma all_bytes_spec (buf : buffer) :
  all_bytes buf = true <-> (forall b, In b buf -> 0 <= b < 256).
Proof.
  unfold all_bytes. rewrite forallb_forall.
  split; intros H b Hb; apply is_byte_spec; auto.
Qed.

Lemma all_bytes_app (a b : buffer) :
  all_bytes (a ++ b) = all_bytes a && all_bytes b.
Proof. apply forallb_app. Qed.

(** A decidable property of bytes holds of all of them once it has been
    evaluated on the 256 values. *)
Lemma byte_enum (P : Z -> bool) :
  forallb P byte_values = true -> forall b, 0 <= b < 256 -> P b = true.
Proof.
  intros H b Hb. rewrite forallb_forall in H. apply H.
  apply in_map_iff. exists (Z.to_nat b). split; [lia|].
  apply in_seq. lia.
Qed.

Lemma wrap_small (x : Z) : - 2 ^ 31 <= x < 2 ^ 31 -> Int32.wrap x = x.
Proof.
  intros H. unfold Int32.wrap. rewrite Z.mod_small; lia.
Qed.

Lemma byte_high_bits (a n : Z) :
  0 <= a < 256 -> 8 <= n -> Z.testbit a n = false.
Proof.
  intros Ha Hn.
  destruct (Z.eq_dec a 0) as [->|Hnz]; [apply Z.bits_0|].
  apply Z.bits_above_log2; [lia|].
  assert (Z.log2 a < 8) by (apply Z.log2_lt_pow2; lia).
  lia.
Qed.

Lemma lxor_byte (a b : Z) :
  0 <= a < 256 -> 0 <= b < 256 -> 0 <= Z.lxor a b < 256.
Proof.
  intros Ha Hb.
  assert (Z.lxor a b mod 2 ^ 8 = Z.lxor a b) as H.
  { rewrite <- Z.land_ones by lia.
    apply Z.bits_inj'. intros n Hn.
    rewrite Z.land_spec, Z.lxor_spec.
    destruct (Z.ltb_spec n 8).
    - rewrite Z.ones_spec_low by lia. apply andb_true_r.
    - rewrite Z.ones_spec_high by lia.
      rewrite !byte_high_bits by assumption. reflexivity. }
  rewrite <- H. apply Z.mod_pos_bound. lia.
Qed.

Lemma xor_bytes_lxor (a b : Z) :
  0 <= a < 256 -> 0 <= b < 256 -> Int32.xor a b = Z.lxor a b.
Proof.
  intros Ha Hb. unfold Int32.xor. rewrite !wrap_small; lia.
Qed.

Lemma xor_byte (a b : Z) :
  0 <= a < 256 -> 0 <= b < 256 -> 0 <= Int32.xor a b < 256.
Proof.
  intros Ha Hb. rewrite xor_bytes_lxor by assumption.
  apply lxor_byte; assumption.
Qed.

Lemma xor_cancel (a b : Z) :
  0 <= a < 256 -> 0 <= b < 256 -> Int32.xor (Int32.xor a b) b = a.
Proof.
  intros Ha Hb.
  rewrite (xor_bytes_lxor a b Ha Hb).
  rewrite xor_bytes_lxor by (auto using lxor_byte).
  rewrite Z.lxor_assoc, Z.lxor_nilpotent. apply Z.lxor_0_r.
Qed.

Lemma and_ff_byte (x : Z) : 0 <= Int32.and x 0xff < 256.
Proof.
  unfold Int32.and.
  replace (Int32.wrap 255) with (Z.ones 8) by reflexivity.
  rewrite Z.land_ones by lia. apply Z.mod_pos_bound. lia.
Qed.

Lemma rotate_left_byte (x s : Z) : 0 <= rotate_left x s < 256.
Proof. apply and_ff_byte. Qed.

Lemma rotate_right_byte (x s : Z) : 0 <= rotate_right x s < 256.
Proof. apply and_ff_byte. Qed.

Lemma shift_of_values (i : nat) : In (shift_of i) shift_values.
Proof.
  unfold shift_of, shift_values.
  pose proof (Nat.mod_upper_bound i 7 ltac:(lia)) as H.
  destruct (i mod 7)%nat as [|[|[|[|[|[|[|n]]]]]]]; simpl; try lia; tauto.
Qed.

Lemma shift_of_range (i : nat) : 1 <= shift_of i <= 7.
Proof.
  pose proof (shift_of_values i) as H. unfold shift_values in H.
  simpl in H. lia.
Qed.

(** The right rotation undoes the left rotation of a byte, for each of the
    seven shifts. *)
Lemma rotate_right_left (b s : Z) :
  0 <= b < 256 -> In s shift_values -> rotate_right (rotate_left b s) s = b.
Proof.
  intros Hb Hs. apply Z.eqb_eq.
  revert b Hb.
  apply (byte_enum (fun b => rotate_right (rotate_left b s) s =? b)).
  unfold shift_values in Hs. simpl in Hs.
  repeat (destruct Hs as [<- | Hs]; [vm_compute; reflexivity|]).
  contradiction.
Qed.

(** The left rotation is the textbook one: bit [k] of the result is bit
    [(k - s) mod 8] of the byte. *)
Lemma rotate_left_bits (b s : Z) :
  0 <= b < 256 -> In s shift_values ->
  rotate_left b s = (b * 2 ^ s) mod 256 + b / 2 ^ (8 - s).
Proof.
  intros Hb Hs. apply Z.eqb_eq.
  revert b Hb.
  apply (byte_enum (fun b => rotate_left b s =? (b * 2 ^ s) mod 256 + b / 2 ^ (8 - s))).
  unfold shift_values in Hs. simpl in Hs.
  repeat (destruct Hs as [<- | Hs]; [vm_compute; reflexivity|]).
  contradiction.
Qed.

(** ** Buffers and loops *)

Lemma buf_get_lookup (buf : buffer) (i : nat) (b : Z) :
  buf !! i = Some b -> buf_get buf i = b.
Proof. unfold buf_get. intros ->. reflexivity. Qed.

Lemma buf_get_byte (buf : buffer) (i : nat) :
  all_bytes buf = true -> 0 <= buf_get buf i < 256.
Proof.
  intros H. unfold buf_get.
  destruct (buf !! i) as [b|] eqn:E; simpl; [|lia].
  rewrite all_bytes_spec in H. apply H.
  apply list_elem_of_In. eapply list_elem_of_lookup_2. eassumption.
Qed.

Lemma buf_get_mod_byte (buf : buffer) (i : nat) :
  all_bytes buf = true -> 0 <= buf_get_mod buf i < 256.
Proof.
  intros H. unfold buf_get_mod.
  destruct (length buf); [lia|]. apply buf_get_byte. assumption.
Qed.

Lemma lookup_map {A B : Type} (f : A -> B) (l : list A) (i : nat) :
  map f l !! i = option_map f (l !! i).
Proof.
  revert i. induction l as [|a l IH]; intros [|i]; simpl; auto.
Qed.

(** A loop that stores [f i] at every index of a fresh buffer builds the
    list of the stored bytes. *)
Lemma for_from_fill (f : nat -> Z) (steps : nat) :
  forall (done : buffer) (todo : nat),
    todo = steps ->
    for_from (length done) steps (fun i buf => buf_set buf i (f i))
      (done ++ replicate todo 0)
    = done ++ map (fun i => f i mod 256) (seq (length done) steps).
Proof.
  induction steps as [|k IH]; intros done todo ->.
  - simpl. reflexivity.
  - simpl. unfold buf_set at 2.
    replace (<[length done := f (length done) mod 256]> (done ++ 0 :: replicate k 0))
      with ((done ++ [f (length done) mod 256]) ++ replicate k 0).
    + specialize (IH (done ++ [f (length done) mod 256]) k eq_refl).
      rewrite length_app in IH. simpl in IH.
      replace (length done + 1)%nat with (S (length done)) in IH by lia.
      rewrite IH. rewrite <- app_assoc. reflexivity.
    + rewrite <- app_assoc. simpl.
      rewrite insert_app_r_alt by lia.
      rewrite Nat.sub_diag. reflexivity.
Qed.

Lemma for_loop_fill (f : nat -> Z) (n : nat) :
  for_loop n (fun i buf => buf_set buf i (f i)) (Buffer_alloc n)
  = map (fun i => f i mod 256) (seq 0 n).
Proof.
  unfold for_loop, Buffer_alloc.
  apply (for_from_fill f n [] n eq_refl).
Qed.

Lemma map_buf_get_seq (buf : buffer) :
  map (buf_get buf) (seq 0 (length buf)) = buf.
Proof.
  apply list_eq. intros i.
  rewrite lookup_map.
  destruct (decide (i < length buf)%nat) as [Hi|Hi].
  - rewrite lookup_seq_lt by assumption. simpl.
    destruct (lookup_lt_is_Some_2 buf i Hi) as [b Hb].
    rewrite Hb. f_equal. apply buf_get_lookup. assumption.
  - rewrite lookup_seq_ge by lia. simpl.
    symmetry. apply lookup_ge_None. lia.
Qed.

Create HintDb bytes.
#[local] Hint Resolve xor_byte buf_get_byte buf_get_mod_byte
  rotate_left_byte rotate_right_byte shift_of_values : bytes.

(** ** The transform, under one key and one salt *)
Section Transform.

Variables k salt : buffer.
Hypothesis key_is_bytes : all_bytes k = true.
Hypothesis salt_is_bytes : all_bytes salt = true.

Lemma encrypt_loop_map (pt : buffer) :
  encrypt_loop k salt pt = map (encrypt_byte k salt pt) (seq 0 (length pt)).
Proof using Type.
  unfold encrypt_loop. rewrite for_loop_fill.
  apply map_ext. intros i. apply Z.mod_small. apply rotate_left_byte.
Qed.

Lemma encrypt_loop_length (pt : buffer) :
  length (encrypt_loop k salt pt) = length pt.
Proof using Type.
  rewrite encrypt_loop_map, length_map, length_seq. reflexivity.
Qed.

Lemma encrypt_loop_lookup (pt : buffer) (i : nat) :
  (i < length pt)%nat ->
  encrypt_loop k salt pt !! i = Some (encrypt_byte k salt pt i).
Proof using Type.
  intros Hi. rewrite encrypt_loop_map.
  rewrite lookup_map, lookup_seq_lt by assumption. reflexivity.
Qed.

Lemma encrypt_loop_bytes (pt : buffer) :
  all_bytes (encrypt_loop k salt pt) = true.
Proof using Type.
  rewrite encrypt_loop_map. apply all_bytes_spec.
  intros b Hb. apply in_map_iff in Hb as (i & <- & _).
  apply rotate_left_byte.
Qed.

Lemma decrypt_byte_byte (enc : buffer) (i : nat) :
  0 <= decrypt_byte k salt enc i < 256.
Proof using key_is_bytes salt_is_bytes.
  unfold decrypt_byte. auto with bytes.
Qed.

Lemma decrypt_loop_map (enc : buffer) :
  decrypt_loop k salt enc = map (decrypt_byte k salt enc) (seq 0 (length enc)).
Proof using key_is_bytes salt_is_bytes.
  unfold decrypt_loop. rewrite for_loop_fill.
  apply map_ext. intros i. apply Z.mod_small. apply decrypt_byte_byte.
Qed.

(** Each byte: the right rotation undoes the left one, then the two XORs
    cancel in reverse order. *)
Lemma decrypt_byte_encrypt_byte (pt : buffer) (i : nat) :
  all_bytes pt = true -> (i < length pt)%nat ->
  decrypt_byte k salt (encrypt_loop k salt pt) i = buf_get pt i.
Proof using key_is_bytes salt_is_bytes.
  intros Hp Hi. unfold decrypt_byte.
  rewrite (buf_get_lookup _ _ _ (encrypt_loop_lookup pt i Hi)).
  unfold encrypt_byte.
  rewrite rotate_right_left by auto 6 with bytes.
  rewrite xor_cancel by auto with bytes.
  apply xor_cancel; auto with bytes.
Qed.

(** The transform of [decrypt] undoes the transform of [encrypt] under the
    same key and salt. *)
Lemma decrypt_encrypt_loop (pt : buffer) :
  all_bytes pt = true ->
  decrypt_loop k salt (encrypt_loop k salt pt) = pt.
Proof using key_is_bytes salt_is_bytes.
  intros Hp.
  rewrite decrypt_loop_map, encrypt_loop_length.
  rewrite <- (map_buf_get_seq pt) at 3.
  apply map_ext_in. intros i Hi. apply in_seq in Hi.
  apply decrypt_byte_encrypt_byte; [assumption | lia].
Qed.

End Transform.

Lemma decrypt_loop_length (k salt enc : buffer) :
  length (decrypt_loop k salt enc) = length enc.
Proof.
  unfold decrypt_loop. rewrite for_loop_fill, length_map, length_seq.
  reflexivity.
Qed.

(** ** Strings and hexadecimal *)

Lemma startsWith_app (p s : jsstring) : startsWith (p ++ s) p = true.
Proof.
  induction p as [|c p IH]; simpl; [reflexivity|].
  rewrite Z.eqb_refl, IH. reflexivity.
Qed.

Lemma startsWith_spec (s p : jsstring) :
  startsWith s p = true <-> exists t, s = p ++ t.
Proof.
  split.
  - revert s. induction p as [|c p IH]; intros s H.
    + exists s. reflexivity.
    + destruct s as [|d s]; simpl in H; [discriminate|].
      apply andb_true_iff in H as [Hc Hp]. apply Z.eqb_eq in Hc. subst d.
      destruct (IH s Hp) as [t ->]. exists t. reflexivity.
  - intros [t ->]. apply startsWith_app.
Qed.

Lemma strip_0x_prefixed (s : jsstring) : strip_0x (js "0x" ++ s) = s.
Proof.
  unfold strip_0x. rewrite startsWith_app. reflexivity.
Qed.

Lemma hex_digit_unhex (d : Z) : 0 <= d < 16 -> unhex (hex_digit d) = Some d.
Proof.
  intros Hd. unfold unhex.
  replace (hex_digit d mod 256) with (hex_digit d)
    by (symmetry; apply Z.mod_small; unfold hex_digit; destruct (d <? 10); lia).
  unfold hex_digit, unhex_table.
  destruct (d <? 10) eqn:E; [apply Z.ltb_lt in E | apply Z.ltb_ge in E].
  - replace ((48 <=? 48 + d) && (48 + d <=? 57)) with true
      by (symmetry; apply andb_true_iff; split; apply Z.leb_le; lia).
    f_equal. lia.
  - replace ((48 <=? 87 + d) && (87 + d <=? 57)) with false
      by (symmetry; apply andb_false_iff; right; apply Z.leb_gt; lia).
    replace ((65 <=? 87 + d) && (87 + d <=? 70)) with false
      by (symmetry; apply andb_false_iff; right; apply Z.leb_gt; lia).
    replace ((97 <=? 87 + d) && (87 + d <=? 102)) with true
      by (symmetry; apply andb_true_iff; split; apply Z.leb_le; lia).
    f_equal. lia.
Qed.

Lemma hex_encode_cons (b : Z) (buf : buffer) :
  hex_encode (b :: buf) = hex_digit (b / 16) :: hex_digit (b mod 16) :: hex_encode buf.
Proof. reflexivity. Qed.

Lemma hex_encode_app (a b : buffer) :
  hex_encode (a ++ b) = hex_encode a ++ hex_encode b.
Proof. unfold hex_encode. apply flat_map_app. Qed.

Lemma hex_encode_length (buf : buffer) :
  length (hex_encode buf) = (2 * length buf)%nat.
Proof.
  induction buf as [|b buf IH]; [reflexivity|].
  rewrite hex_encode_cons. simpl length. rewrite IH. lia.
Qed.

(** Decoding reads back the bytes that were encoded and goes on with what
    follows them. *)
Lemma hex_decode_encode_app (buf : buffer) (tail : jsstring) :
  all_bytes buf = true ->
  hex_decode (hex_encode buf ++ tail) = buf ++ hex_decode tail.
Proof.
  induction buf as [|b buf IH]; intros H; [reflexivity|].
  simpl in H. apply andb_true_iff in H as [Hb H].
  apply is_byte_spec in Hb.
  rewrite hex_encode_cons. simpl.
  rewrite !hex_digit_unhex.
  - rewrite IH by assumption. f_equal.
    pose proof (Z.div_mod b 16 ltac:(lia)). lia.
  - apply Z.mod_pos_bound. lia.
  - split; [apply Z.div_pos; lia | apply Z.div_lt_upper_bound; lia].
Qed.

Lemma hex_decode_encode (buf : buffer) :
  all_bytes buf = true -> hex_decode (hex_encode buf) = buf.
Proof.
  intros H. rewrite <- (app_nil_r (hex_encode buf)).
  rewrite hex_decode_encode_app by assumption. apply app_nil_r.
Qed.

Lemma unhex_range (c x : Z) : unhex c = Some x -> 0 <= x < 16.
Proof.
  unfold unhex. generalize (c mod 256). clear c. intros c.
  unfold unhex_table.
  repeat match goal with
         | |- context [if ?b && ?c then _ else _] =>
             let E := fresh "E" in
             destruct (b && c) eqn:E;
             [apply andb_true_iff in E as [? ?]|]
         end; intros [= <-]; lia.
Qed.

Lemma hex_decode_bytes (s : jsstring) : all_bytes (hex_decode s) = true.
Proof.
  induction s as [s IH] using (induction_ltof1 _ (@length Z)). unfold ltof in IH.
  destruct s as [|a [|b rest]]; try reflexivity.
  simpl. destruct (unhex a) as [x|] eqn:Ea; [|reflexivity].
  destruct (unhex b) as [y|] eqn:Eb; [|reflexivity].
  simpl. rewrite IH by (simpl; lia).
  apply unhex_range in Ea, Eb.
  rewrite andb_true_r. apply is_byte_spec. lia.
Qed.

(** The decoder sees exactly the longest prefix of complete pairs of hex
    digits: one byte for each pair, nothing for what follows. *)
Lemma hex_pairs_prefix_split (s : jsstring) :
  exists tail, s = hex_pairs_prefix s ++ tail /\ stops_decoding tail = true.
Proof.
  induction s as [s IH] using (induction_ltof1 _ (@length Z)). unfold ltof in IH.
  destruct s as [|a [|b rest]].
  - exists []. split; reflexivity.
  - exists [a]. split; reflexivity.
  - simpl. destruct (is_hex a && is_hex b) eqn:E.
    + destruct (IH rest ltac:(simpl; lia)) as (tail & Heq & Hstop).
      exists tail. split; [|assumption].
      simpl. rewrite <- Heq. reflexivity.
    + exists (a :: b :: rest). split; [reflexivity|].
      simpl. rewrite E. reflexivity.
Qed.

Lemma hex_pairs_prefix_hex (s : jsstring) :
  forallb is_hex (hex_pairs_prefix s) = true.
Proof.
  induction s as [s IH] using (induction_ltof1 _ (@length Z)). unfold ltof in IH.
  destruct s as [|a [|b rest]]; try reflexivity.
  simpl. destruct (is_hex a && is_hex b) eqn:E; [|reflexivity].
  apply andb_true_iff in E as [Ea Eb].
  simpl. rewrite Ea, Eb, IH by (simpl; lia). reflexivity.
Qed.

Lemma hex_decode_prefix (s : jsstring) :
  hex_decode s = hex_decode (hex_pairs_prefix s)
  /\ (2 * length (hex_decode s) = length (hex_pairs_prefix s))%nat.
Proof.
  induction s as [s IH] using (induction_ltof1 _ (@length Z)). unfold ltof in IH.
  destruct s as [|a [|b rest]]; try (split; reflexivity).
  simpl. unfold is_hex.
  destruct (unhex a) as [x|] eqn:Ea; [|split; reflexivity].
  destruct (unhex b) as [y|] eqn:Eb; [|split; reflexivity].
  simpl. rewrite Ea, Eb.
  destruct (IH rest ltac:(simpl; lia)) as [H1 H2].
  split; [f_equal; assumption | simpl; lia].
Qed.

(** A character is taken for a hex digit exactly when the low 8 bits of
    its code unit are the byte of one. *)
Lemma is_hex_low_byte (c : Z) : is_hex c = is_hex_digit_byte (c mod 256).
Proof.
  unfold is_hex, unhex, is_hex_digit_byte, unhex_table.
  destruct ((48 <=? c mod 256) && (c mod 256 <=? 57)); [reflexivity|].
  destruct ((65 <=? c mod 256) && (c mod 256 <=? 70)); [reflexivity|].
  destruct ((97 <=? c mod 256) && (c mod 256 <=? 102)); reflexivity.
Qed.

Example hex_decode_narrows_code_units :
  hex_decode (js "1" ++ [0x132] ++ js "3456") = [0x12; 0x34; 0x56]
  /\ hex_decode (js "a" ++ [0x166] ++ js "bf") = [0xAF; 0xBF]
  /\ hex_decode (js "1" ++ [0x17A] ++ js "3456") = [].
Proof. repeat split. Qed.

(** ** UTF-8 *)

Module Utf8Facts.
Import Utf8.

Lemma split2 (c : Z) :
  0 <= c ->
  exists a l, c = a * 64 + l /\ 0 <= l < 64 /\ 0 <= a
              /\ c / 64 = a /\ c mod 64 = l.
Proof.
  intros Hc. exists (c / 64), (c mod 64).
  pose proof (Z.div_mod c 64 ltac:(lia)).
  pose proof (Z.mod_pos_bound c 64 ltac:(lia)).
  pose proof (Z.div_pos c 64 Hc ltac:(lia)).
  repeat split; lia.
Qed.

Lemma split3 (c : Z) :
  0 <= c ->
  exists a m l, c = (a * 64 + m) * 64 + l /\ 0 <= l < 64 /\ 0 <= m < 64 /\ 0 <= a
                /\ c / 4096 = a /\ (c / 64) mod 64 = m /\ c mod 64 = l.
Proof.
  intros Hc.
  destruct (split2 c Hc) as (q & l & Hq & Hl & Hq0 & Eq & El).
  destruct (split2 q Hq0) as (a & m & Ha & Hm & Ha0 & Ea & Em).
  exists a, m, l. repeat split; try lia.
  - change 4096 with (64 * 64). rewrite <- Z.div_div by lia.
    rewrite Eq. assumption.
  - rewrite Eq. assumption.
Qed.

Lemma split4 (c : Z) :
  0 <= c ->
  exists a n m l,
    c = ((a * 64 + n) * 64 + m) * 64 + l
    /\ 0 <= l < 64 /\ 0 <= m < 64 /\ 0 <= n < 64 /\ 0 <= a
    /\ c / 262144 = a /\ (c / 4096) mod 64 = n
    /\ (c / 64) mod 64 = m /\ c mod 64 = l.
Proof.
  intros Hc.
  destruct (split2 c Hc) as (q & l & Hq & Hl & Hq0 & Eq & El).
  destruct (split3 q Hq0) as (a & n & m & Ha & Hm & Hn & Ha0 & Ea & En & Em).
  exists a, n, m, l. repeat split; try lia.
  - change 262144 with (64 * 4096). rewrite <- Z.div_div by lia.
    rewrite Eq. assumption.
  - change 4096 with (64 * 64). rewrite <- Z.div_div by lia.
    rewrite Eq. assumption.
  - rewrite Eq. assumption.
Qed.

Lemma bytes_of_cp_bytes (c : Z) :
  0 <= c < 0x110000 -> all_bytes (bytes_of_cp c) = true.
Proof.
  intros Hc. unfold bytes_of_cp.
  destruct (c <? 0x80) eqn:E1; [|destruct (c <? 0x800) eqn:E2;
    [|destruct (c <? 0x10000) eqn:E3]]; cmp_cases.
  - simpl. rewrite andb_true_r. apply is_byte_spec. lia.
  - destruct (split2 c) as (a & l & Hq & Hl & Ha0 & -> & ->); [lia|].
    apply all_bytes_spec. simpl. intros b Hb. lia.
  - destruct (split3 c) as (a & m & l & Hq & Hl & Hm & Ha0 & -> & -> & ->); [lia|].
    apply all_bytes_spec. simpl. intros b Hb. lia.
  - destruct (split4 c) as (a & n & m & l & Hq & Hl & Hm & Hn & Ha0 & -> & -> & -> & ->); [lia|].
    apply all_bytes_spec. simpl. intros b Hb. lia.
Qed.

Lemma bytes_of_cp_length (c : Z) :
  (1 <= length (bytes_of_cp c) <= 4)%nat.
Proof.
  unfold bytes_of_cp.
  repeat match goal with
         | |- context [if ?b then _ else _] => destruct b
         end; simpl; lia.
Qed.

(** The automaton reads the bytes of a scalar value without complaint and
    is [Idle] again after them. *)
Lemma run_bytes_of_cp (c : Z) (rest : buffer) :
  is_scalar c ->
  run Idle (bytes_of_cp c ++ rest) = emissions_of_cp c ++ run Idle rest.
Proof.
  intros [Hc Hs]. unfold emissions_of_cp, bytes_of_cp.
  destruct (c <? 0x80) eqn:E1; [|destruct (c <? 0x800) eqn:E2;
    [|destruct (c <? 0x10000) eqn:E3]]; cmp_cases.
  - simpl. unfold lead. settle_cmp. reflexivity.
  - destruct (split2 c) as (a & l & Hq & Hl & Ha0 & -> & ->); [lia|].
    simpl. unfold lead. settle_cmp. simpl. settle_cmp. simpl.
    replace ((192 + a - 192) * 64 + (128 + l - 128)) with c by lia.
    reflexivity.
  - destruct (split3 c) as (a & m & l & Hq & Hl & Hm & Ha0 & -> & -> & ->); [lia|].
    simpl. unfold lead. settle_cmp. simpl.
    destruct (224 + a =? 224) eqn:Ea; destruct (224 + a =? 237) eqn:Ed;
      cmp_cases; settle_cmp; simpl; settle_cmp; simpl;
      replace (((224 + a - 224) * 64 + (128 + m - 128)) * 64 + (128 + l - 128))
        with c by lia; reflexivity.
  - destruct (split4 c) as (a & n & m & l & Hq & Hl & Hm & Hn & Ha0 & -> & -> & -> & ->); [lia|].
    simpl. unfold lead. settle_cmp. simpl.
    destruct (240 + a =? 240) eqn:Ea; destruct (240 + a =? 244) eqn:Ed;
      cmp_cases; settle_cmp; simpl; settle_cmp; simpl; settle_cmp; simpl;
      replace ((((240 + a - 240) * 64 + (128 + n - 128)) * 64 + (128 + m - 128)) * 64
               + (128 + l - 128)) with c by lia; reflexivity.
Qed.

Lemma emissions_of_cp_units (c : Z) :
  flat_map units_of_emission (emissions_of_cp c) = units_of_cp c.
Proof.
  unfold emissions_of_cp. rewrite flat_map_app.
  induction (length (bytes_of_cp c) - 1)%nat as [|n IH]; simpl.
  - apply app_nil_r.
  - exact IH.
Qed.

Lemma emissions_of_cp_clean (c : Z) :
  forallb (fun e => negb (is_malformed e)) (emissions_of_cp c) = true.
Proof.
  unfold emissions_of_cp. rewrite forallb_app.
  induction (length (bytes_of_cp c) - 1)%nat as [|n IH]; simpl; auto.
Qed.

(** The decoder reads the bytes of a scalar value back as its UTF-16
    code units. *)
Lemma decode_bytes_of_cp (c : Z) (rest : buffer) :
  is_scalar c ->
  decode (bytes_of_cp c ++ rest) = units_of_cp c ++ decode rest.
Proof.
  intros Hc. unfold decode.
  rewrite run_bytes_of_cp by assumption.
  rewrite flat_map_app, emissions_of_cp_units. reflexivity.
Qed.

Lemma valid_bytes_of_cp (c : Z) (rest : buffer) :
  is_scalar c -> valid (bytes_of_cp c ++ rest) = valid rest.
Proof.
  intros Hc. unfold valid.
  rewrite run_bytes_of_cp by assumption.
  rewrite forallb_app, emissions_of_cp_clean. reflexivity.
Qed.

Lemma units_of_pair (u v : Z) :
  is_high u = true -> is_low v = true ->
  units_of_cp (0x10000 + (u - 0xD800) * 1024 + (v - 0xDC00)) = [u; v].
Proof.
  unfold is_high, is_low. intros Hu Hv. cmp_cases.
  unfold units_of_cp. settle_cmp.
  replace (65536 + (u - 55296) * 1024 + (v - 56320) - 65536)
    with ((v - 56320) + (u - 55296) * 1024) by lia.
  rewrite Z.div_add, Z.mod_add by lia.
  rewrite Z.div_small, Z.mod_small by lia.
  f_equal; [lia | f_equal; lia].
Qed.

Lemma pair_scalar (u v : Z) :
  is_high u = true -> is_low v = true ->
  is_scalar (0x10000 + (u - 0xD800) * 1024 + (v - 0xDC00)).
Proof.
  unfold is_high, is_low, is_scalar. intros Hu Hv. cmp_cases. lia.
Qed.

Lemma pair_range (u v : Z) :
  is_high u = true -> is_low v = true ->
  0 <= 0x10000 + (u - 0xD800) * 1024 + (v - 0xDC00) < 0x110000.
Proof. intros Hu Hv. apply (pair_scalar u v Hu Hv). Qed.

Lemma list_ind2 {A : Type} (P : list A -> Prop) :
  P [] -> (forall a, P [a]) ->
  (forall a b l, P l -> P (b :: l) -> P (a :: b :: l)) ->
  forall l, P l.
Proof.
  intros H0 H1 H2.
  assert (forall l, P l /\ forall a, P (a :: l)) as H.
  { induction l as [|b l [IH1 IH2]]; split; auto. }
  intros l. apply H.
Qed.

(** The encoder writes bytes only, whatever the string. *)
Lemma encode_bytes (s : jsstring) :
  forallb is_code_unit s = true -> all_bytes (encode s) = true.
Proof.
  induction s as [|u|u v s IH1 IH2] using list_ind2; intros H.
  - reflexivity.
  - simpl in H. unfold is_code_unit in H. cmp_cases.
    change (encode [u]) with
      (if is_high u then bytes_of_cp replacement
       else if is_low u then bytes_of_cp replacement ++ []
       else bytes_of_cp u ++ []).
    destruct (is_high u); [reflexivity|].
    destruct (is_low u); [reflexivity|].
    rewrite app_nil_r. apply bytes_of_cp_bytes. lia.
  - assert (forallb is_code_unit (v :: s) = true) as Hvs
        by (simpl in H; apply andb_true_iff in H; tauto).
    assert (forallb is_code_unit s = true) as Hs
        by (simpl in Hvs; apply andb_true_iff in Hvs; tauto).
    assert (is_code_unit u = true) as Hu
        by (simpl in H; apply andb_true_iff in H; tauto).
    change (encode (u :: v :: s)) with
      (if is_high u then
         if is_low v then
           bytes_of_cp (0x10000 + (u - 0xD800) * 1024 + (v - 0xDC00)) ++ encode s
         else bytes_of_cp replacement ++ encode (v :: s)
       else if is_low u then bytes_of_cp replacement ++ encode (v :: s)
       else bytes_of_cp u ++ encode (v :: s)).
    destruct (is_high u) eqn:Eh; [destruct (is_low v) eqn:El|
      destruct (is_low u) eqn:El]; rewrite all_bytes_app.
    + rewrite IH1 by assumption.
      rewrite bytes_of_cp_bytes by (apply pair_range; assumption).
      reflexivity.
    + rewrite IH2 by assumption. reflexivity.
    + rewrite IH2 by assumption. reflexivity.
    + rewrite IH2 by assumption.
      unfold is_code_unit in Hu. cmp_cases.
      rewrite bytes_of_cp_bytes by lia. reflexivity.
Qed.

Lemma well_formed_units (s : jsstring) :
  well_formed s = true -> forallb is_code_unit s = true.
Proof.
  induction s as [|u|u v s IH1 IH2] using list_ind2; intros H.
  - reflexivity.
  - simpl in *. destruct (is_high u); [discriminate|].
    cmp_cases. rewrite H1. reflexivity.
  - change (well_formed (u :: v :: s)) with
      (if is_high u then is_low v && well_formed s
       else negb (is_low u) && is_code_unit u && well_formed (v :: s)) in H.
    destruct (is_high u) eqn:Eh.
    + apply andb_true_iff in H as [Hv Hs].
      simpl. rewrite (IH1 Hs).
      unfold is_high in Eh. unfold is_low in Hv. unfold is_code_unit.
      cmp_cases. settle_cmp. reflexivity.
    + apply andb_true_iff in H as [H Hs]. apply andb_true_iff in H as [_ Hu].
      change (forallb is_code_unit (u :: v :: s)) with
        (is_code_unit u && forallb is_code_unit (v :: s)).
      rewrite Hu, (IH2 Hs). reflexivity.
Qed.

Lemma replacement_scalar : is_scalar replacement.
Proof. unfold is_scalar, replacement. lia. Qed.

(** The encoder writes valid UTF-8, whatever the string. *)
Lemma encode_valid (s : jsstring) :
  forallb is_code_unit s = true -> valid (encode s) = true.
Proof.
  induction s as [|u|u v s IH1 IH2] using list_ind2; intros H.
  - reflexivity.
  - simpl in H. unfold is_code_unit in H. cmp_cases.
    change (encode [u]) with
      (if is_high u then bytes_of_cp replacement
       else if is_low u then bytes_of_cp replacement ++ []
       else bytes_of_cp u ++ []).
    destruct (is_high u) eqn:Eh; [reflexivity|].
    destruct (is_low u) eqn:El; [reflexivity|].
    rewrite valid_bytes_of_cp; [reflexivity|].
    unfold is_high, is_low in *.
    cmp_cases; unfold is_scalar; lia.
  - assert (forallb is_code_unit (v :: s) = true) as Hvs
        by (simpl in H; apply andb_true_iff in H; tauto).
    assert (forallb is_code_unit s = true) as Hs
        by (simpl in Hvs; apply andb_true_iff in Hvs; tauto).
    assert (is_code_unit u = true) as Hu
        by (simpl in H; apply andb_true_iff in H; tauto).
    change (encode (u :: v :: s)) with
      (if is_high u then
         if is_low v then
           bytes_of_cp (0x10000 + (u - 0xD800) * 1024 + (v - 0xDC00)) ++ encode s
         else bytes_of_cp replacement ++ encode (v :: s)
       else if is_low u then bytes_of_cp replacement ++ encode (v :: s)
       else bytes_of_cp u ++ encode (v :: s)).
    destruct (is_high u) eqn:Eh; [destruct (is_low v) eqn:El|
      destruct (is_low u) eqn:El].
    + rewrite valid_bytes_of_cp by (apply pair_scalar; assumption). auto.
    + rewrite valid_bytes_of_cp by apply replacement_scalar. auto.
    + rewrite valid_bytes_of_cp by apply replacement_scalar. auto.
    + rewrite valid_bytes_of_cp; [auto|].
      unfold is_high, is_low, is_code_unit in *.
      cmp_cases; unfold is_scalar; lia.
Qed.

(** Decoding the bytes of a well-formed string gives the string back. *)
Lemma decode_encode (s : jsstring) :
  well_formed s = true -> decode (encode s) = s.
Proof.
  induction s as [|u|u v s IH1 IH2] using list_ind2; intros H.
  - reflexivity.
  - simpl in *. destruct (is_high u) eqn:Eh; [discriminate|].
    destruct (is_low u) eqn:El; [discriminate|].
    unfold is_high, is_low, is_code_unit in *.
    cmp_cases;
      (rewrite decode_bytes_of_cp by (unfold is_scalar; lia));
      unfold units_of_cp; settle_cmp; reflexivity.
  - change (well_formed (u :: v :: s)) with
      (if is_high u then is_low v && well_formed s
       else negb (is_low u) && is_code_unit u && well_formed (v :: s)) in H.
    change (encode (u :: v :: s)) with
      (if is_high u then
         if is_low v then
           bytes_of_cp (0x10000 + (u - 0xD800) * 1024 + (v - 0xDC00)) ++ encode s
         else bytes_of_cp replacement ++ encode (v :: s)
       else if is_low u then bytes_of_cp replacement ++ encode (v :: s)
       else bytes_of_cp u ++ encode (v :: s)).
    destruct (is_high u) eqn:Eh.
    + apply andb_true_iff in H as [Hv Hs]. rewrite Hv.
      rewrite decode_bytes_of_cp by (apply pair_scalar; assumption).
      rewrite units_of_pair by assumption.
      rewrite (IH1 Hs). reflexivity.
    + apply andb_true_iff in H as [H Hs]. apply andb_true_iff in H as [Hl Hu].
      apply negb_true_iff in Hl. rewrite Hl.
      unfold is_high, is_low, is_code_unit in *.
      cmp_cases;
        (rewrite decode_bytes_of_cp by (unfold is_scalar; lia));
        rewrite (IH2 Hs);
        unfold units_of_cp; settle_cmp; reflexivity.
Qed.

(** Bytes that are not valid UTF-8 leave a U+FFFD in the decoded
    string. *)
Lemma invalid_replaced (bs : buffer) :
  valid bs = false -> In replacement (decode bs).
Proof.
  unfold valid, decode. intros H.
  assert (exists e, In e (run Idle bs) /\ is_malformed e = true) as (e & He & Hm).
  { induction (run Idle bs) as [|e l IH]; simpl in H; [discriminate|].
    destruct (is_malformed e) eqn:E; simpl in H.
    - exists e. split; [left; reflexivity | assumption].
    - destruct (IH H) as (e' & He' & Hm'). exists e'. split; [right|]; assumption. }
  apply in_flat_map. exists e. split; [assumption|].
  destruct e; try discriminate. left. reflexivity.
Qed.

End Utf8Facts.

(** ** SHA-256 *)

Lemma be32_bytes (w : Z) : all_bytes (Sha256.be32 w) = true.
Proof.
  apply all_bytes_spec. unfold Sha256.be32. simpl.
  intros b [<-|[<-|[<-|[<-|[]]]]]; apply Z.mod_pos_bound; lia.
Qed.

Lemma sha256_output_bytes (h : Sha256.regs) : all_bytes (Sha256.output h) = true.
Proof.
  unfold Sha256.output. rewrite !all_bytes_app, !be32_bytes. reflexivity.
Qed.

Lemma sha256_output_length (h : Sha256.regs) : length (Sha256.output h) = 32%nat.
Proof. reflexivity. Qed.

Lemma digest_length (msg : buffer) : length (Sha256.digest msg) = 32%nat.
Proof. unfold Sha256.digest. apply sha256_output_length. Qed.

Lemma digest_bytes (msg : buffer) : all_bytes (Sha256.digest msg) = true.
Proof. unfold Sha256.digest. apply sha256_output_bytes. Qed.

(** The padded message is a whole number of 64-byte blocks. *)
Lemma pad_length (msg : buffer) : (length (Sha256.pad msg) mod 64 = 0)%nat.
Proof.
  unfold Sha256.pad. rewrite !length_app, length_replicate. simpl length.
  pose proof (Nat.div_mod_eq (length msg) 64) as Hm.
  pose proof (Nat.mod_upper_bound (length msg) 64 ltac:(lia)) as Hr.
  set (r := (length msg mod 64)%nat) in *.
  set (q := (length msg / 64)%nat) in *.
  rewrite Hm.
  destruct (le_lt_dec r 55) as [Hle|Hgt].
  - replace ((119 - r) mod 64)%nat with (55 - r)%nat.
    + replace (64 * q + r + (1 + (55 - r + 8)))%nat with (64 + q * 64)%nat by lia.
      rewrite Nat.Div0.mod_add. reflexivity.
    + replace (119 - r)%nat with ((55 - r) + 1 * 64)%nat by lia.
      rewrite Nat.Div0.mod_add. symmetry. apply Nat.mod_small. lia.
  - replace ((119 - r) mod 64)%nat with (119 - r)%nat
      by (symmetry; apply Nat.mod_small; lia).
    replace (64 * q + r + (1 + (119 - r + 8)))%nat with (0 + (q + 2) * 64)%nat by lia.
    rewrite Nat.Div0.mod_add. reflexivity.
Qed.

(** ** The cipher *)

Lemma key_bytes (sk : secret) : all_bytes (key (constructor sk)) = true.
Proof. apply digest_bytes. Qed.

Lemma key_length (sk : secret) : length (key (constructor sk)) = 32%nat.
Proof. apply digest_length. Qed.

Lemma is_salt_spec (salt : buffer) :
  is_salt salt = true <-> length salt = 8%nat /\ all_bytes salt = true.
Proof.
  unfold is_salt. rewrite andb_true_iff, Nat.eqb_eq. tauto.
Qed.

Lemma decode_encrypt (self : HexCrypto) (salt : buffer) (P : jsstring) :
  is_salt salt = true ->
  decode (encrypt self salt P)
  = Normal (salt, encrypt_loop (key self) salt (Buffer_from_utf8 P)).
Proof.
  intros Hsalt. apply is_salt_spec in Hsalt as [Hlen Hbytes].
  unfold decode, Buffer_from_hex, bind, encrypt.
  rewrite strip_0x_prefixed.
  rewrite hex_decode_encode
    by (rewrite all_bytes_app, Hbytes, encrypt_loop_bytes; reflexivity).
  rewrite take_app_length' by congruence.
  rewrite drop_app_length' by congruence.
  reflexivity.
Qed.

(** [decrypt] undoes [encrypt] on well-formed text, for any engine whose
    key holds bytes. *)
Lemma decrypt_encrypt (self : HexCrypto) (salt : buffer) (P : jsstring) :
  all_bytes (key self) = true -> is_salt salt = true ->
  Utf8.well_formed P = true ->
  decrypt self (encrypt self salt P) = Normal P.
Proof.
  intros Hkey Hsalt Hwf. unfold decrypt.
  rewrite decode_encrypt by assumption. unfold bind, fst, snd.
  apply is_salt_spec in Hsalt as [_ Hbytes].
  unfold Buffer_from_utf8.
  rewrite decrypt_encrypt_loop; try assumption.
  - unfold Buffer_toString_utf8. rewrite Utf8Facts.decode_encode by assumption.
    reflexivity.
  - apply Utf8Facts.encode_bytes. apply Utf8Facts.well_formed_units. assumption.
Qed.

Lemma fromChainTag_toChainTag (X : jsstring) :
  startsWith X (js "0x") = true -> fromChainTag (toChainTag X) = X.
Proof.
  intros H. apply startsWith_spec in H as [t ->].
  unfold fromChainTag, toChainTag. rewrite startsWith_app. reflexivity.
Qed.

Lemma fromChainTag_untagged (s : jsstring) :
  startsWith s (js "0xENC1") = false -> fromChainTag s = s.
Proof. unfold fromChainTag. intros ->. reflexivity. Qed.

Lemma encrypt_prefixed (self : HexCrypto) (salt : buffer) (P : jsstring) :
  startsWith (encrypt self salt P) (js "0x") = true.
Proof. unfold encrypt. apply startsWith_app. Qed.

Lemma decryptFromChain_encryptForChain
    (self : HexCrypto) (salt : buffer) (now : Z) (P : jsstring) :
  decryptFromChain self (chainData (encryptForChain self salt now P))
  = decrypt self (encrypt self salt P).
Proof.
  unfold decryptFromChain, encryptForChain. simpl chainData.
  rewrite fromChainTag_toChainTag by apply encrypt_prefixed.
  reflexivity.
Qed.

(** C1 (as amended). For every secret, every 8-byte salt and every
    plaintext string in which no surrogate code unit is left unpaired (the
    empty string and multi-byte text included), decrypting the chain-tagged
    output of the encryption returns the plaintext, and so does decrypting
    the bare encoded form. *)
Theorem decrypt_encrypt_roundtrip
    (S : secret) (salt : buffer) (now : Z) (P : jsstring) :
  is_salt salt = true ->
  Utf8.well_formed P = true ->
  decryptFromChain (constructor S)
    (chainData (encryptForChain (constructor S) salt now P)) = Normal P
  /\ decrypt (constructor S) (encrypt (constructor S) salt P) = Normal P.
Proof.
  intros Hsalt Hwf.
  rewrite decryptFromChain_encryptForChain.
  split; apply decrypt_encrypt; auto using key_bytes.
Qed.

(** The theorem at the secret "test", a salt and a plaintext of four
    characters, one of three and one of four UTF-8 bytes. *)
Lemma decrypt_encrypt_roundtrip_witness :
  decryptFromChain (constructor (SecretString (js "test")))
    (chainData (encryptForChain (constructor (SecretString (js "test")))
                  [7; 0; 255; 18; 52; 86; 120; 154] 1700000000000
                  [72; 0x4E2D; 0xD83D; 0xDE00])) = Normal [72; 0x4E2D; 0xD83D; 0xDE00]
  /\ decrypt (constructor (SecretString (js "test")))
       (encrypt (constructor (SecretString (js "test")))
          [7; 0; 255; 18; 52; 86; 120; 154] [72; 0x4E2D; 0xD83D; 0xDE00])
     = Normal [72; 0x4E2D; 0xD83D; 0xDE00].
Proof.
  apply (decrypt_encrypt_roundtrip (SecretString (js "test"))
           [7; 0; 255; 18; 52; 86; 120; 154] 1700000000000
           [72; 0x4E2D; 0xD83D; 0xDE00]); reflexivity.
Defined.

(** C1, counterexample. The string made of the lone surrogate U+D800 is
    encoded as the bytes of U+FFFD, so it comes back as U+FFFD from both
    decryption paths. *)
Lemma roundtrip_lone_surrogate :
  decryptFromChain (constructor (SecretString (js "test")))
    (chainData (encryptForChain (constructor (SecretString (js "test")))
                  [0; 0; 0; 0; 0; 0; 0; 0] 0 [0xD800])) = Normal [0xFFFD]
  /\ decrypt (constructor (SecretString (js "test")))
       (encrypt (constructor (SecretString (js "test")))
          [0; 0; 0; 0; 0; 0; 0; 0] [0xD800]) = Normal [0xFFFD]
  /\ decrypt (constructor (SecretString (js "test")))
       (encrypt (constructor (SecretString (js "test")))
          [0; 0; 0; 0; 0; 0; 0; 0] [0xD800]) <> Normal [0xD800].
Proof.
  split; [|split]; [vm_compute; reflexivity .. |].
  vm_compute. discriminate.
Qed.

(** ** The per-byte formula *)

Lemma rotate_left_spec (b s : Z) :
  0 <= b < 256 -> In s shift_values ->
  rotate_left b s = spec_rotl8 b s /\ rotate_left b s = rotl8_arith b s.
Proof.
  intros Hb Hs.
  enough ((rotate_left b s =? spec_rotl8 b s)
          && (rotate_left b s =? rotl8_arith b s) = true) as H
      by (apply andb_true_iff in H as [H1 H2];
          split; apply Z.eqb_eq; assumption).
  revert b Hb.
  apply (byte_enum (fun b => (rotate_left b s =? spec_rotl8 b s)
                             && (rotate_left b s =? rotl8_arith b s))).
  unfold shift_values in Hs. simpl in Hs.
  repeat (destruct Hs as [<- | Hs]; [vm_compute; reflexivity|]).
  contradiction.
Qed.

Lemma buf_get_nth (buf : buffer) (i : nat) : buf_get buf i = nth i buf 0.
Proof. unfold buf_get. symmetry. apply nth_lookup. Qed.

Lemma buf_get_mod_nth (buf : buffer) (n i : nat) :
  length buf = S n -> buf_get_mod buf i = nth (i mod S n) buf 0.
Proof.
  intros H. unfold buf_get_mod. rewrite H. apply buf_get_nth.
Qed.

Lemma encrypt_byte_spec (k salt pt : buffer) (i : nat) :
  length k = 32%nat -> length salt = 8%nat ->
  all_bytes k = true -> all_bytes salt = true -> all_bytes pt = true ->
  encrypt_byte k salt pt i = spec_cipher_byte k salt pt i
  /\ encrypt_byte k salt pt i
     = rotl8_arith (Z.lxor (Z.lxor (nth i pt 0) (nth (i mod 32) k 0))
                      (nth (i mod 8) salt 0))
         (Z.of_nat (i mod 7) + 1).
Proof.
  intros Lk Ls Hk Hs Hp.
  pose proof (buf_get_byte pt i Hp) as Bp.
  pose proof (buf_get_mod_byte k i Hk) as Bk.
  pose proof (buf_get_mod_byte salt i Hs) as Bs.
  pose proof (xor_byte _ _ Bp Bk) as B1.
  pose proof (xor_byte _ _ B1 Bs) as B2.
  unfold encrypt_byte, spec_cipher_byte.
  destruct (rotate_left_spec _ (shift_of i) B2 (shift_of_values i)) as [R1 R2].
  rewrite R1 at 1. rewrite R2.
  rewrite (xor_bytes_lxor _ _ B1 Bs), (xor_bytes_lxor _ _ Bp Bk).
  rewrite (buf_get_mod_nth k 31 i Lk), (buf_get_mod_nth salt 7 i Ls), buf_get_nth.
  split; reflexivity.
Qed.

(** C2. For a plaintext byte sequence, a 32-byte key and an 8-byte salt,
    the cipher byte at every position [i] is the plaintext byte XORed with
    [key[i mod 32]], then with [salt[i mod 8]], then rotated left
    circularly within 8 bits by [(i mod 7) + 1]. With the key
    SHA-256("test"), the plaintext "Hi" and the all-zero salt the cipher
    bytes are [af bf], the values of that formula, and the encoded message
    is [0x0000000000000000afbf]. *)
Theorem cipher_byte_formula (k salt plaintext : buffer) (i : nat) :
  length k = 32%nat -> length salt = 8%nat ->
  all_bytes k = true -> all_bytes salt = true -> all_bytes plaintext = true ->
  (i < length plaintext)%nat ->
  encrypt_loop k salt plaintext !! i = Some (spec_cipher_byte k salt plaintext i)
  /\ spec_cipher_byte k salt plaintext i
     = rotl8_arith (Z.lxor (Z.lxor (nth i plaintext 0) (nth (i mod 32) k 0))
                      (nth (i mod 8) salt 0))
         (Z.of_nat (i mod 7) + 1)
  /\ key (constructor (SecretString (js "test")))
     = Sha256.digest (Buffer_from_utf8 (js "test"))
  /\ encrypt_loop (Sha256.digest (Buffer_from_utf8 (js "test")))
       [0; 0; 0; 0; 0; 0; 0; 0] (Buffer_from_utf8 (js "Hi"))
     = [spec_cipher_byte (Sha256.digest (Buffer_from_utf8 (js "test")))
          [0; 0; 0; 0; 0; 0; 0; 0] (Buffer_from_utf8 (js "Hi")) 0;
        spec_cipher_byte (Sha256.digest (Buffer_from_utf8 (js "test")))
          [0; 0; 0; 0; 0; 0; 0; 0] (Buffer_from_utf8 (js "Hi")) 1]
  /\ encrypt_loop (Sha256.digest (Buffer_from_utf8 (js "test")))
       [0; 0; 0; 0; 0; 0; 0; 0] (Buffer_from_utf8 (js "Hi")) = [0xAF; 0xBF]
  /\ encrypt (constructor (SecretString (js "test")))
       [0; 0; 0; 0; 0; 0; 0; 0] (js "Hi") = js "0x0000000000000000afbf".
Proof.
  intros Lk Ls Hk Hs Hp Hi.
  destruct (encrypt_byte_spec k salt plaintext i Lk Ls Hk Hs Hp) as [E1 E2].
  split; [|split; [|split; [|split; [|split]]]].
  - rewrite encrypt_loop_lookup by assumption. rewrite E1. reflexivity.
  - rewrite <- E1. exact E2.
  - reflexivity.
  - vm_compute. reflexivity.
  - vm_compute. reflexivity.
  - vm_compute. reflexivity.
Qed.

Lemma cipher_byte_formula_witness :
  encrypt_loop (Sha256.digest (Buffer_from_utf8 (js "test")))
    [0; 0; 0; 0; 0; 0; 0; 0] (Buffer_from_utf8 (js "Hi")) !! 1%nat = Some 0xBF
  /\ spec_cipher_byte (Sha256.digest (Buffer_from_utf8 (js "test")))
       [0; 0; 0; 0; 0; 0; 0; 0] (Buffer_from_utf8 (js "Hi")) 1 = 0xBF.
Proof.
  destruct (cipher_byte_formula
              (Sha256.digest (Buffer_from_utf8 (js "test")))
              [0; 0; 0; 0; 0; 0; 0; 0] (Buffer_from_utf8 (js "Hi")) 1)
    as (H1 & _); [apply digest_length | reflexivity | apply digest_bytes
                 | reflexivity | reflexivity | vm_compute; lia |].
  split; [rewrite H1|]; vm_compute; reflexivity.
Defined.

(** ** The decode step *)

Lemma decode_normal (hexString : jsstring) :
  decode hexString
  = Normal (take 8 (hex_decode (strip_0x hexString)),
            drop 8 (hex_decode (strip_0x hexString))).
Proof. reflexivity. Qed.

Lemma decrypt_normal (self : HexCrypto) (hexString : jsstring) :
  decrypt self hexString = Normal (Utf8.decode (recovered_bytes self hexString)).
Proof. reflexivity. Qed.

Lemma decryptFromChain_normal (self : HexCrypto) (chainData : jsstring) :
  decryptFromChain self chainData
  = Normal (Utf8.decode (recovered_bytes self (fromChainTag chainData))).
Proof. reflexivity. Qed.

(** C3 (as amended). The decode step never fails. After the optional [0x]
    prefix it turns the longest prefix of complete pairs of hex digits into
    bytes, one byte for each pair, and drops what follows (a last unpaired
    character, or everything from the first pair holding a character that
    is no hex digit). A character counts as a hex digit by the low 8 bits
    of its code unit alone, so U+0132 is read as [2]. The first eight
    bytes, or fewer when fewer were decoded, are the salt and the rest is
    the cipher. On [0x1234] it gives the salt [12 34] and an empty cipher,
    on [0xzz] an empty salt and an empty cipher, and on [0x1], U+0132,
    [3456] the salt [12 34 56] and an empty cipher. *)
Theorem decode_never_fails (hexString : jsstring) :
  exists tail : jsstring,
    strip_0x hexString = hex_pairs_prefix (strip_0x hexString) ++ tail
    /\ stops_decoding tail = true
    /\ forallb is_hex (hex_pairs_prefix (strip_0x hexString)) = true
    /\ hex_decode (strip_0x hexString)
       = hex_decode (hex_pairs_prefix (strip_0x hexString))
    /\ (2 * length (hex_decode (strip_0x hexString))
        = length (hex_pairs_prefix (strip_0x hexString)))%nat
    /\ decode hexString
       = Normal (take 8 (hex_decode (strip_0x hexString)),
                 drop 8 (hex_decode (strip_0x hexString)))
    /\ (forall e, decode hexString <> Throw e)
    /\ (forall c, is_hex c = is_hex_digit_byte (c mod 256))
    /\ decode (js "0x1234") = Normal ([0x12; 0x34], [])
    /\ decode (js "0xzz") = Normal ([], [])
    /\ decode (js "0x1" ++ [0x132] ++ js "3456") = Normal ([0x12; 0x34; 0x56], []).
Proof.
  destruct (hex_pairs_prefix_split (strip_0x hexString)) as (tail & Heq & Hstop).
  destruct (hex_decode_prefix (strip_0x hexString)) as [Hdec Hlen].
  exists tail.
  repeat split; try assumption.
  - apply hex_pairs_prefix_hex.
  - intros e. rewrite decode_normal. discriminate.
  - apply is_hex_low_byte.
Qed.

(** C3, counterexample. [0x1234] decodes to two bytes, fewer than the
    eight of a salt, [0xzz] holds no hex digit and [0x123] has an odd
    number of digits: the decode step returns on all three. *)
Lemma decode_accepts_malformed :
  decode (js "0x1234") = Normal ([0x12; 0x34], [])
  /\ decode (js "0x1234") <> Throw DecodeError
  /\ decode (js "0xzz") = Normal ([], [])
  /\ decode (js "0xzz") <> Throw DecodeError
  /\ decode (js "0x123") = Normal ([0x12], [])
  /\ decode (js "0x123") <> Throw DecodeError.
Proof.
  repeat split; try reflexivity; rewrite decode_normal; discriminate.
Qed.

(** ** UTF-8 decoding of the recovered bytes *)

Example valid_utf8_text :
  Utf8.valid (Utf8.encode [72; 105; 0x20AC; 0xD83D; 0xDE00]) = true.
Proof. reflexivity. Qed.

Example invalid_utf8_lone_continuation : Utf8.valid [0x80] = false.
Proof. reflexivity. Qed.

Example invalid_utf8_overlong : Utf8.valid [0xC0; 0xAF] = false.
Proof. reflexivity. Qed.

Example invalid_utf8_surrogate : Utf8.valid [0xED; 0xA0; 0x80] = false.
Proof. reflexivity. Qed.

Example invalid_utf8_truncated : Utf8.valid [0xE2; 0x82] = false.
Proof. reflexivity. Qed.

(** C4 (as amended). [decryptFromChain] unwraps the chain tag, decodes the
    hex, reverses the transform and UTF-8-decodes the recovered bytes
    without failing: when those bytes are not valid UTF-8 it returns a
    string, in which U+FFFD stands for what was malformed. *)
Theorem decryptFromChain_replaces_invalid_utf8
    (self : HexCrypto) (chainData : jsstring) :
  Utf8.valid (recovered_bytes self (fromChainTag chainData)) = false ->
  decryptFromChain self chainData
  = Normal (Utf8.decode (recovered_bytes self (fromChainTag chainData)))
  /\ In Utf8.replacement
       (Utf8.decode (recovered_bytes self (fromChainTag chainData)))
  /\ (forall e, decryptFromChain self chainData <> Throw e).
Proof.
  intros Hinvalid. split; [|split].
  - apply decryptFromChain_normal.
  - apply Utf8Facts.invalid_replaced. assumption.
  - intros e. rewrite decryptFromChain_normal. discriminate.
Qed.

Lemma decryptFromChain_replaces_invalid_utf8_witness :
  decryptFromChain (constructor (SecretString (js "test")))
    (js "0xENC10000000000000000c0") = Normal [0xFFFD].
Proof.
  destruct (decryptFromChain_replaces_invalid_utf8
              (constructor (SecretString (js "test")))
              (js "0xENC10000000000000000c0")) as (H & _ & _).
  - vm_compute. reflexivity.
  - rewrite H. vm_compute. reflexivity.
Defined.

(** C4, counterexample. Under the secret "test" the tagged message
    [0xENC10000000000000000c0] holds the single recovered byte [ff], which
    is not valid UTF-8; the call returns the string U+FFFD. *)
Lemma invalid_utf8_not_rejected :
  recovered_bytes (constructor (SecretString (js "test")))
    (fromChainTag (js "0xENC10000000000000000c0")) = [0xFF]
  /\ Utf8.valid [0xFF] = false
  /\ decryptFromChain (constructor (SecretString (js "test")))
       (js "0xENC10000000000000000c0") = Normal [0xFFFD]
  /\ decryptFromChain (constructor (SecretString (js "test")))
       (js "0xENC10000000000000000c0") <> Throw DecodeError.
Proof.
  repeat split; try (vm_compute; reflexivity).
  rewrite decryptFromChain_normal. discriminate.
Qed.

(** The same on input with characters above U+00FF, which the hex decoder
    reads by their low byte: [b8], U+0162, [c] is the cipher [b8 bc] and
    comes back as U+00E9, and [c], U+0130 is the cipher [c0], whose
    recovered byte [ff] is replaced. *)
Example decryptFromChain_low_byte_input :
  decryptFromChain (constructor (SecretString (js "test")))
    (js "0x0000000000000000b8" ++ [0x162] ++ js "c") = Normal [0xE9]
  /\ recovered_bytes (constructor (SecretString (js "test")))
       (js "0x0000000000000000c" ++ [0x130]) = [0xFF]
  /\ decryptFromChain (constructor (SecretString (js "test")))
       (js "0x0000000000000000c" ++ [0x130]) = Normal [0xFFFD]
  /\ decrypt (constructor (SecretString (js "test")))
       (js "0x0000000000000000a" ++ [0x166] ++ js "bf") = Normal (js "Hi").
Proof. repeat split; vm_compute; reflexivity. Qed.

(** ** Lengths *)

(** C5. The cipher has as many bytes as the UTF-8 form of the plaintext,
    the encoded message (salt then cipher) has 8 more, and the hex string
    has 2 characters for the prefix and 2 for each byte. *)
Theorem length_invariant (self : HexCrypto) (salt : buffer) (P : jsstring) :
  length salt = 8%nat ->
  exists cipher : buffer,
    cipher = encrypt_loop (key self) salt (Buffer_from_utf8 P)
    /\ encrypt self salt P = js "0x" ++ hex_encode (salt ++ cipher)
    /\ length cipher = length (Buffer_from_utf8 P)
    /\ length (salt ++ cipher) = (8 + length (Buffer_from_utf8 P))%nat
    /\ length (encrypt self salt P)
       = (2 + 2 * (8 + length (Buffer_from_utf8 P)))%nat.
Proof.
  intros Hsalt. eexists. split; [reflexivity|].
  split; [reflexivity|].
  split; [apply encrypt_loop_length|].
  split.
  - rewrite length_app, Hsalt, encrypt_loop_length. reflexivity.
  - unfold encrypt. rewrite length_app, hex_encode_length, length_app.
    rewrite Hsalt, encrypt_loop_length. reflexivity.
Qed.

(** The theorem at a plaintext of two characters and five UTF-8 bytes:
    the hex string has 2 + 2 * (8 + 5) = 28 characters. *)
Lemma length_invariant_witness :
  length (Buffer_from_utf8 [0x20AC; 0xE9]) = 5%nat
  /\ length (encrypt (constructor (SecretString (js "k")))
               [1; 2; 3; 4; 5; 6; 7; 8] [0x20AC; 0xE9]) = 28%nat.
Proof.
  split; [reflexivity|].
  destruct (length_invariant (constructor (SecretString (js "k")))
              [1; 2; 3; 4; 5; 6; 7; 8] [0x20AC; 0xE9] eq_refl)
    as (cipher & _ & _ & _ & _ & H).
  rewrite H. reflexivity.
Defined.

(** ** Key derivation *)



(** ** The chain tag *)

(** C7. Unwrapping the tag of a wrapped hex string that begins with [0x]
    gives the string back, and a string that does not begin with [0xENC1]
    is passed through unchanged, so [decryptFromChain] decrypts it as it
    is. *)
Theorem chain_tag_roundtrip (self : HexCrypto) (X s : jsstring) :
  startsWith X (js "0x") = true ->
  startsWith s (js "0xENC1") = false ->
  fromChainTag (toChainTag X) = X
  /\ fromChainTag s = s
  /\ decryptFromChain self (toChainTag X) = decrypt self X
  /\ decryptFromChain self s = decrypt self s.
Proof.
  intros HX Hs. unfold decryptFromChain.
  rewrite (fromChainTag_toChainTag X HX), (fromChainTag_untagged s Hs).
  repeat split.
Qed.

Lemma chain_tag_roundtrip_witness :
  fromChainTag (toChainTag (js "0x0000000000000000afbf")) = js "0x0000000000000000afbf"
  /\ fromChainTag (js "0x0000000000000000afbf") = js "0x0000000000000000afbf".
Proof.
  destruct (chain_tag_roundtrip (constructor (SecretString (js "test")))
              (js "0x0000000000000000afbf") (js "0x0000000000000000afbf")
              eq_refl eq_refl) as (H1 & H2 & _).
  split; assumption.
Defined.

(** ** Fresh salts *)

Lemma encrypt_salt_injective (self : HexCrypto) (salt1 salt2 : buffer) (P : jsstring) :
  is_salt salt1 = true -> is_salt salt2 = true ->
  encrypt self salt1 P = encrypt self salt2 P -> salt1 = salt2.
Proof.
  intros H1 H2 Heq.
  pose proof (decode_encrypt self salt1 P H1) as D1.
  pose proof (decode_encrypt self salt2 P H2) as D2.
  rewrite Heq in D1. rewrite D1 in D2. congruence.
Qed.

Lemma chainData_injective (self : HexCrypto) (salt1 salt2 : buffer) (now1 now2 : Z)
    (P : jsstring) :
  chainData (encryptForChain self salt1 now1 P)
  = chainData (encryptForChain self salt2 now2 P) ->
  encrypt self salt1 P = encrypt self salt2 P.
Proof.
  unfold encryptForChain. simpl chainData. intros Heq.
  apply (f_equal fromChainTag) in Heq.
  rewrite !fromChainTag_toChainTag in Heq by apply encrypt_prefixed.
  assumption.
Qed.

(** C8 (as amended). Two encryptions of the same plaintext under the same
    secret that draw distinct 8-byte salts give different strings, bare
    and chain-tagged, whatever the plaintext; and each of them decrypts
    back to the plaintext when no surrogate code unit of the plaintext is
    left unpaired. *)
Theorem distinct_salts_distinct_outputs
    (S : secret) (salt1 salt2 : buffer) (now1 now2 : Z) (P : jsstring) :
  is_salt salt1 = true -> is_salt salt2 = true -> salt1 <> salt2 ->
  encrypt (constructor S) salt1 P <> encrypt (constructor S) salt2 P
  /\ chainData (encryptForChain (constructor S) salt1 now1 P)
     <> chainData (encryptForChain (constructor S) salt2 now2 P)
  /\ (Utf8.well_formed P = true ->
      decrypt (constructor S) (encrypt (constructor S) salt1 P) = Normal P
      /\ decrypt (constructor S) (encrypt (constructor S) salt2 P) = Normal P
      /\ decryptFromChain (constructor S)
           (chainData (encryptForChain (constructor S) salt1 now1 P)) = Normal P
      /\ decryptFromChain (constructor S)
           (chainData (encryptForChain (constructor S) salt2 now2 P)) = Normal P).
Proof.
  intros H1 H2 Hne.
  assert (encrypt (constructor S) salt1 P <> encrypt (constructor S) salt2 P) as Hdiff.
  { intros Heq. apply Hne. eapply encrypt_salt_injective; eassumption. }
  split; [assumption|].
  split; [intros Heq; apply Hdiff; eapply chainData_injective; eassumption|].
  intros Hwf. rewrite !decryptFromChain_encryptForChain.
  repeat split; apply decrypt_encrypt; auto using key_bytes.
Qed.

(** The theorem at two salts that differ in their last byte: once at a
    well-formed plaintext, where both parts apply, and once at the lone
    surrogate U+DC00, where the outputs still differ. *)
Lemma distinct_salts_distinct_outputs_witness :
  encrypt (constructor (SecretString (js "test"))) [0; 0; 0; 0; 0; 0; 0; 0]
    (js "Same message")
  <> encrypt (constructor (SecretString (js "test"))) [0; 0; 0; 0; 0; 0; 0; 1]
       (js "Same message")
  /\ decrypt (constructor (SecretString (js "test")))
       (encrypt (constructor (SecretString (js "test"))) [0; 0; 0; 0; 0; 0; 0; 1]
          (js "Same message")) = Normal (js "Same message")
  /\ encrypt (constructor (SecretString (js "test"))) [0; 0; 0; 0; 0; 0; 0; 0] [0xDC00]
     <> encrypt (constructor (SecretString (js "test"))) [0; 0; 0; 0; 0; 0; 0; 1] [0xDC00].
Proof.
  destruct (distinct_salts_distinct_outputs (SecretString (js "test"))
              [0; 0; 0; 0; 0; 0; 0; 0] [0; 0; 0; 0; 0; 0; 0; 1] 0 1
              (js "Same message"))
    as (H1 & _ & H2); [reflexivity | reflexivity | discriminate |].
  destruct (H2 eq_refl) as (_ & H3 & _).
  destruct (distinct_salts_distinct_outputs (SecretString (js "test"))
              [0; 0; 0; 0; 0; 0; 0; 0] [0; 0; 0; 0; 0; 0; 0; 1] 0 1 [0xDC00])
    as (H4 & _); [reflexivity | reflexivity | discriminate |].
  split; [exact H1|]. split; [exact H3 | exact H4].
Defined.

(** C8, counterexample. With the lone surrogate U+DC00 as plaintext the two
    outputs differ but neither decrypts back to the plaintext. *)
Lemma distinct_salts_lone_surrogate :
  encrypt (constructor (SecretString (js "test"))) [0; 0; 0; 0; 0; 0; 0; 0] [0xDC00]
  <> encrypt (constructor (SecretString (js "test"))) [0; 0; 0; 0; 0; 0; 0; 1] [0xDC00]
  /\ decrypt (constructor (SecretString (js "test")))
       (encrypt (constructor (SecretString (js "test")))
          [0; 0; 0; 0; 0; 0; 0; 0] [0xDC00]) <> Normal [0xDC00]
  /\ decrypt (constructor (SecretString (js "test")))
       (encrypt (constructor (SecretString (js "test")))
          [0; 0; 0; 0; 0; 0; 0; 1] [0xDC00]) <> Normal [0xDC00].
Proof.
  repeat split; vm_compute; discriminate.
Qed.

(** ** The plain hex helpers *)

Lemma hex_digit_lower (d : Z) : 0 <= d < 16 -> is_lower_hex (hex_digit d) = true.
Proof.
  intros Hd. unfold is_lower_hex, hex_digit.
  destruct (d <? 10) eqn:E; cmp_cases; settle_cmp; reflexivity.
Qed.

Lemma hex_encode_lower (buf : buffer) :
  all_bytes buf = true -> forallb is_lower_hex (hex_encode buf) = true.
Proof.
  induction buf as [|b buf IH]; intros H; [reflexivity|].
  simpl in H. apply andb_true_iff in H as [Hb H]. apply is_byte_spec in Hb.
  rewrite hex_encode_cons. simpl.
  rewrite !hex_digit_lower, IH; try assumption; try reflexivity.
  - apply Z.mod_pos_bound. lia.
  - split; [apply Z.div_pos; lia | apply Z.div_lt_upper_bound; lia].
Qed.

(** C9 (as amended). For every string in which no surrogate code unit is
    left unpaired, [hexToString] gives back what [stringToHex] was given,
    and [stringToHex] returns [0x] followed by the lowercase hex digits of
    the UTF-8 bytes of the string. *)
Theorem hex_helpers_roundtrip (s : jsstring) :
  Utf8.well_formed s = true ->
  hexToString (stringToHex s) = Normal s
  /\ stringToHex s = js "0x" ++ hex_encode (Utf8.encode s)
  /\ forallb is_lower_hex (hex_encode (Utf8.encode s)) = true.
Proof.
  intros Hwf.
  assert (all_bytes (Utf8.encode s) = true) as Hbytes
      by auto using Utf8Facts.encode_bytes, Utf8Facts.well_formed_units.
  split; [|split].
  - unfold hexToString, stringToHex, Buffer_from_hex, Buffer_from_utf8, bind.
    rewrite strip_0x_prefixed, hex_decode_encode by assumption.
    unfold Buffer_toString_utf8.
    rewrite Utf8Facts.decode_encode by assumption. reflexivity.
  - reflexivity.
  - apply hex_encode_lower. assumption.
Qed.

Lemma hex_helpers_roundtrip_witness :
  hexToString (stringToHex (js "Hello World")) = Normal (js "Hello World")
  /\ stringToHex (js "Hello World") = js "0x48656c6c6f20576f726c64".
Proof.
  destruct (hex_helpers_roundtrip (js "Hello World") eq_refl) as (H1 & H2 & _).
  split; [assumption|]. rewrite H2. reflexivity.
Defined.

(** C9, counterexample. The lone surrogate U+DC00 is written as the bytes
    [ef bf bd] of U+FFFD and read back as U+FFFD. *)
Lemma hex_helpers_lone_surrogate :
  stringToHex [0xDC00] = js "0xefbfbd"
  /\ hexToString (stringToHex [0xDC00]) = Normal [0xFFFD]
  /\ hexToString (stringToHex [0xDC00]) <> Normal [0xDC00].
Proof.
  repeat split; try reflexivity. vm_compute. discriminate.
Qed.

(** ** Totality of decryption *)



(* ===================================================================== *)
(** * Part III: further properties of the cipher                          *)
(* ===================================================================== *)

(** ** The transform for any key and salt *)

Lemma rotate_left_right (b s : Z) :
  0 <= b < 256 -> In s shift_values -> rotate_left (rotate_right b s) s = b.
Proof.
  intros Hb Hs. apply Z.eqb_eq.
  revert b Hb.
  apply (byte_enum (fun b => rotate_left (rotate_right b s) s =? b)).
  unfold shift_values in Hs. simpl in Hs.
  repeat (destruct Hs as [<- | Hs]; [vm_compute; reflexivity|]).
  contradiction.
Qed.

Lemma decrypt_loop_lookup (k salt enc : buffer) (i : nat) :
  all_bytes k = true -> all_bytes salt = true ->
  (i < length enc)%nat ->
  decrypt_loop k salt enc !! i = Some (decrypt_byte k salt enc i).
Proof.
  intros Hk Hs Hi. rewrite decrypt_loop_map by assumption.
  rewrite lookup_map, lookup_seq_lt by assumption. reflexivity.
Qed.

(** The transform of [encrypt] undoes the transform of [decrypt] too. *)
Lemma encrypt_decrypt_loop (k salt enc : buffer) :
  all_bytes k = true -> all_bytes salt = true -> all_bytes enc = true ->
  encrypt_loop k salt (decrypt_loop k salt enc) = enc.
Proof.
  intros Hk Hs He.
  rewrite encrypt_loop_map, decrypt_loop_length.
  rewrite <- (map_buf_get_seq enc) at 3.
  apply map_ext_in. intros i Hi. apply in_seq in Hi.
  unfold encrypt_byte.
  rewrite (buf_get_lookup _ _ _ (decrypt_loop_lookup k salt enc i Hk Hs ltac:(lia))).
  unfold decrypt_byte.
  pose proof (buf_get_byte enc i He) as Be.
  pose proof (buf_get_mod_byte k i Hk) as Bk.
  pose proof (buf_get_mod_byte salt i Hs) as Bs.
  pose proof (rotate_right_byte (buf_get enc i) (shift_of i)) as Br.
  pose proof (xor_byte _ _ Br Bs) as B1.
  rewrite xor_cancel by assumption.
  rewrite xor_cancel by assumption.
  apply rotate_left_right; auto using shift_of_values.
Qed.

(** X1. The byte transforms of [encrypt] and [decrypt] are inverse to each
    other, in both orders, for every key buffer and salt buffer whatever
    their lengths (an empty key or salt reads as zeros); both keep the
    length. *)
Theorem transform_inverse_any_lengths (k salt bytes : buffer) :
  all_bytes k = true -> all_bytes salt = true -> all_bytes bytes = true ->
  decrypt_loop k salt (encrypt_loop k salt bytes) = bytes
  /\ encrypt_loop k salt (decrypt_loop k salt bytes) = bytes
  /\ length (encrypt_loop k salt bytes) = length bytes
  /\ length (decrypt_loop k salt bytes) = length bytes.
Proof.
  intros Hk Hs Hp. split; [|split; [|split]].
  - apply decrypt_encrypt_loop; assumption.
  - apply encrypt_decrypt_loop; assumption.
  - apply encrypt_loop_length.
  - apply decrypt_loop_length.
Qed.

Lemma transform_inverse_any_lengths_witness :
  decrypt_loop [200; 3; 77] [] (encrypt_loop [200; 3; 77] [] [1; 2; 3; 4; 5; 255; 0; 128])
  = [1; 2; 3; 4; 5; 255; 0; 128].
Proof.
  apply (transform_inverse_any_lengths [200; 3; 77] [] [1; 2; 3; 4; 5; 255; 0; 128]);
    reflexivity.
Defined.

(** One byte decrypted under another key and salt: the rotation is undone
    and the four XORs remain. *)
Lemma decrypt_byte_other_key (k1 s1 k2 s2 pt : buffer) (i : nat) :
  all_bytes k1 = true -> all_bytes s1 = true ->
  all_bytes k2 = true -> all_bytes s2 = true ->
  all_bytes pt = true -> (i < length pt)%nat ->
  decrypt_byte k2 s2 (encrypt_loop k1 s1 pt) i
  = Z.lxor (Z.lxor (Z.lxor (Z.lxor (buf_get pt i) (buf_get_mod k1 i))
                      (buf_get_mod s1 i)) (buf_get_mod s2 i)) (buf_get_mod k2 i).
Proof.
  intros Hk1 Hs1 Hk2 Hs2 Hp Hi. unfold decrypt_byte.
  rewrite (buf_get_lookup _ _ _ (encrypt_loop_lookup k1 s1 pt i Hi)).
  unfold encrypt_byte.
  pose proof (buf_get_byte pt i Hp) as Bp.
  pose proof (buf_get_mod_byte k1 i Hk1) as Bk1.
  pose proof (buf_get_mod_byte s1 i Hs1) as Bs1.
  pose proof (buf_get_mod_byte k2 i Hk2) as Bk2.
  pose proof (buf_get_mod_byte s2 i Hs2) as Bs2.
  pose proof (xor_byte _ _ Bp Bk1) as B1.
  pose proof (xor_byte _ _ B1 Bs1) as B2.
  rewrite rotate_right_left by (auto using shift_of_values).
  pose proof (xor_byte _ _ B2 Bs2) as B3.
  rewrite (xor_bytes_lxor _ _ B3 Bk2), (xor_bytes_lxor _ _ B2 Bs2),
    (xor_bytes_lxor _ _ B1 Bs1), (xor_bytes_lxor _ _ Bp Bk1).
  reflexivity.
Qed.

Lemma hex_decode_encrypt (self : HexCrypto) (salt : buffer) (P : jsstring) :
  all_bytes salt = true ->
  hex_decode (strip_0x (encrypt self salt P))
  = salt ++ encrypt_loop (key self) salt (Buffer_from_utf8 P).
Proof.
  intros Hbytes. unfold encrypt. rewrite strip_0x_prefixed.
  apply hex_decode_encode.
  rewrite all_bytes_app, Hbytes, encrypt_loop_bytes. reflexivity.
Qed.

Lemma recovered_bytes_encrypt
    (other self : HexCrypto) (salt : buffer) (P : jsstring) :
  is_salt salt = true ->
  recovered_bytes other (encrypt self salt P)
  = decrypt_loop (key other) salt
      (encrypt_loop (key self) salt (Buffer_from_utf8 P)).
Proof.
  intros Hsalt. apply is_salt_spec in Hsalt as [Hlen Hbytes].
  unfold recovered_bytes. rewrite hex_decode_encrypt by assumption.
  rewrite take_app_length', drop_app_length' by congruence.
  reflexivity.
Qed.

(** X2. Decrypting under another secret does not fail: byte [i] of what is
    recovered is the plaintext byte XORed with the difference of the two
    keys at [i mod 32], so it is the plaintext byte exactly where the two
    keys agree. *)
Theorem wrong_key_recovers_xor
    (S1 S2 : secret) (salt : buffer) (P : jsstring) (i : nat) :
  is_salt salt = true ->
  forallb is_code_unit P = true ->
  (i < length (Buffer_from_utf8 P))%nat ->
  recovered_bytes (constructor S2) (encrypt (constructor S1) salt P) !! i
  = Some (Z.lxor (nth i (Buffer_from_utf8 P) 0)
            (Z.lxor (nth (i mod 32) (key (constructor S1)) 0)
                    (nth (i mod 32) (key (constructor S2)) 0)))
  /\ length (recovered_bytes (constructor S2) (encrypt (constructor S1) salt P))
     = length (Buffer_from_utf8 P)
  /\ decrypt (constructor S2) (encrypt (constructor S1) salt P)
     = Normal (Utf8.decode
                 (recovered_bytes (constructor S2) (encrypt (constructor S1) salt P))).
Proof.
  intros Hsalt HP Hi.
  pose proof (key_bytes S1) as Hk1. pose proof (key_bytes S2) as Hk2.
  pose proof (Utf8Facts.encode_bytes P HP) as Hp.
  split; [|split]; [| |apply decrypt_normal];
    rewrite recovered_bytes_encrypt by assumption;
    apply is_salt_spec in Hsalt as [Hlen Hs].
  - rewrite decrypt_loop_map by assumption.
    rewrite encrypt_loop_length.
    rewrite lookup_map, lookup_seq_lt by assumption.
    unfold option_map. f_equal. rewrite Nat.add_0_l.
    rewrite decrypt_byte_other_key by assumption.
    rewrite (buf_get_mod_nth _ 31 i (key_length S1)),
      (buf_get_mod_nth _ 31 i (key_length S2)), buf_get_nth.
    set (p := nth i (Buffer_from_utf8 P) 0).
    set (a := nth (i mod 32) (key (constructor S1)) 0).
    set (b := nth (i mod 32) (key (constructor S2)) 0).
    rewrite (Z.lxor_assoc (Z.lxor p a) (buf_get_mod salt i) (buf_get_mod salt i)).
    rewrite Z.lxor_nilpotent, Z.lxor_0_r.
    apply Z.lxor_assoc.
  - rewrite decrypt_loop_length. apply encrypt_loop_length.
Qed.

(** The theorem at the secrets "test" and "tesu": their keys differ at
    index 0, and the first recovered byte is not the [H] (72) of "Hi". *)
Lemma wrong_key_recovers_xor_witness :
  recovered_bytes (constructor (SecretString (js "tesu")))
    (encrypt (constructor (SecretString (js "test"))) [1; 2; 3; 4; 5; 6; 7; 8] (js "Hi"))
  !! 0%nat = Some 160.
Proof.
  destruct (wrong_key_recovers_xor (SecretString (js "test")) (SecretString (js "tesu"))
              [1; 2; 3; 4; 5; 6; 7; 8] (js "Hi") 0) as (H & _);
    [reflexivity | reflexivity | vm_compute; lia |].
  rewrite H. vm_compute. reflexivity.
Defined.

(** ** No integrity check *)

Lemma lxor_cancel_middle (p k s1 s2 : Z) :
  Z.lxor (Z.lxor (Z.lxor (Z.lxor p k) s1) s2) k = Z.lxor p (Z.lxor s1 s2).
Proof.
  apply Z.bits_inj'. intros n _. rewrite !Z.lxor_spec.
  destruct (Z.testbit p n), (Z.testbit k n), (Z.testbit s1 n), (Z.testbit s2 n);
    reflexivity.
Qed.

(** X3. The encoded message is not authenticated: when the eight salt
    bytes at its head are replaced by eight others, [decrypt] accepts it,
    and byte [i] of what it recovers is the plaintext byte XORed with the
    difference of the two salts at [i mod 8]. *)
Theorem replaced_salt_recovers_xor
    (S : secret) (salt forged : buffer) (P : jsstring) (i : nat) :
  is_salt salt = true -> is_salt forged = true ->
  forallb is_code_unit P = true ->
  (i < length (Buffer_from_utf8 P))%nat ->
  recovered_bytes (constructor S)
    (js "0x" ++ hex_encode
       (forged ++ encrypt_loop (key (constructor S)) salt (Buffer_from_utf8 P)))
  !! i
  = Some (Z.lxor (nth i (Buffer_from_utf8 P) 0)
            (Z.lxor (nth (i mod 8) salt 0) (nth (i mod 8) forged 0))).
Proof.
  intros Hsalt Hforged HP Hi.
  apply is_salt_spec in Hsalt as [Ls Hs].
  apply is_salt_spec in Hforged as [Lf Hf].
  pose proof (key_bytes S) as Hk.
  pose proof (Utf8Facts.encode_bytes P HP) as Hp.
  unfold recovered_bytes. rewrite strip_0x_prefixed.
  rewrite hex_decode_encode
    by (rewrite all_bytes_app, Hf, encrypt_loop_bytes; reflexivity).
  rewrite take_app_length', drop_app_length' by congruence.
  rewrite decrypt_loop_map by assumption.
  rewrite encrypt_loop_length.
  rewrite lookup_map, lookup_seq_lt by assumption.
  unfold option_map. f_equal. rewrite Nat.add_0_l.
  rewrite decrypt_byte_other_key by assumption.
  rewrite lxor_cancel_middle.
  rewrite (buf_get_mod_nth salt 7 i Ls), (buf_get_mod_nth forged 7 i Lf), buf_get_nth.
  reflexivity.
Qed.

(** The theorem at "Hi": with the salt byte 0 changed from 0 to 1, the
    first recovered byte is [H] (72) with its low bit flipped. *)
Lemma replaced_salt_recovers_xor_witness :
  recovered_bytes (constructor (SecretString (js "test")))
    (js "0x" ++ hex_encode
       ([1; 0; 0; 0; 0; 0; 0; 0]
          ++ encrypt_loop (key (constructor (SecretString (js "test"))))
               [0; 0; 0; 0; 0; 0; 0; 0] (Buffer_from_utf8 (js "Hi"))))
  !! 0%nat = Some 73.
Proof.
  rewrite (replaced_salt_recovers_xor (SecretString (js "test"))
             [0; 0; 0; 0; 0; 0; 0; 0] [1; 0; 0; 0; 0; 0; 0; 0] (js "Hi") 0);
    [reflexivity | reflexivity | reflexivity | reflexivity | vm_compute; lia].
Defined.

(** ** Tag and prefix handling *)

(** X4. [decrypt] does not know the chain tag: given the tagged string of
    [encryptForChain] as it is, it stops at the [N] of [ENC1], finds no
    byte and returns the empty string, whatever the message was. The same
    holds for [hexToString]. *)
Theorem decrypt_of_tagged_is_empty
    (self : HexCrypto) (salt : buffer) (now : Z) (message : jsstring) :
  decrypt self (chainData (encryptForChain self salt now message)) = Normal []
  /\ hexToString (chainData (encryptForChain self salt now message)) = Normal []
  /\ decode (chainData (encryptForChain self salt now message)) = Normal ([], []).
Proof. repeat split. Qed.

Lemma hex_digit_values (d : Z) :
  0 <= d < 16 -> 48 <= hex_digit d <= 57 \/ 97 <= hex_digit d <= 102.
Proof.
  intros Hd. unfold hex_digit. destruct (d <? 10) eqn:E; cmp_cases; lia.
Qed.

(** No hex encoding begins with [0x]: its second character is a digit. *)
Lemma hex_encode_not_prefixed (buf : buffer) :
  startsWith (hex_encode buf) (js "0x") = false.
Proof.
  destruct buf as [|b buf]; [reflexivity|].
  rewrite hex_encode_cons.
  change (startsWith (hex_digit (b / 16) :: hex_digit (b mod 16) :: hex_encode buf)
            (js "0x"))
    with ((hex_digit (b / 16) =? 48) && ((hex_digit (b mod 16) =? 120) && true)).
  pose proof (hex_digit_values (b mod 16) (Z.mod_pos_bound b 16 ltac:(lia))) as H.
  replace (hex_digit (b mod 16) =? 120) with false
    by (symmetry; apply Z.eqb_neq; lia).
  apply andb_false_r.
Qed.

Lemma strip_0x_hex_encode (buf : buffer) :
  strip_0x (hex_encode buf) = hex_encode buf.
Proof. unfold strip_0x. rewrite hex_encode_not_prefixed. reflexivity. Qed.

Lemma fromChainTag_hex_encode (buf : buffer) :
  fromChainTag (hex_encode buf) = hex_encode buf.
Proof.
  apply fromChainTag_untagged.
  destruct (startsWith (hex_encode buf) (js "0xENC1")) eqn:E; [|reflexivity].
  apply startsWith_spec in E as [t Ht].
  pose proof (hex_encode_not_prefixed buf) as H.
  rewrite Ht in H. discriminate H.
Qed.

(** X5. The [0x] prefix is optional on the way back: the output of
    [encrypt] with its first two characters removed decrypts to the same
    plaintext, through [decrypt] and through [decryptFromChain]. *)
Theorem decrypt_without_prefix (S : secret) (salt : buffer) (P : jsstring) :
  is_salt salt = true ->
  Utf8.well_formed P = true ->
  decrypt (constructor S) (slice 2 (encrypt (constructor S) salt P)) = Normal P
  /\ decryptFromChain (constructor S) (slice 2 (encrypt (constructor S) salt P))
     = Normal P.
Proof.
  intros Hsalt Hwf.
  assert (decrypt (constructor S) (slice 2 (encrypt (constructor S) salt P))
          = decrypt (constructor S) (encrypt (constructor S) salt P)) as H.
  { unfold decrypt, decode, encrypt.
    change (slice 2 (js "0x" ++ ?h)) with h.
    rewrite strip_0x_hex_encode, strip_0x_prefixed. reflexivity. }
  split.
  - rewrite H. apply decrypt_encrypt; auto using key_bytes.
  - unfold decryptFromChain.
    replace (fromChainTag (slice 2 (encrypt (constructor S) salt P)))
      with (slice 2 (encrypt (constructor S) salt P))
      by (symmetry; apply fromChainTag_hex_encode).
    rewrite H. apply decrypt_encrypt; auto using key_bytes.
Qed.

Lemma decrypt_without_prefix_witness :
  decrypt (constructor (SecretString (js "test")))
    (slice 2 (encrypt (constructor (SecretString (js "test")))
                [9; 8; 7; 6; 5; 4; 3; 2] (js "vote: yes")))
  = Normal (js "vote: yes").
Proof.
  apply (decrypt_without_prefix (SecretString (js "test"))
           [9; 8; 7; 6; 5; 4; 3; 2] (js "vote: yes")); reflexivity.
Defined.

(** X6. The output of [encrypt] is [0x] followed by an even number of
    lowercase hex digits and nothing else, and the [chainData] of
    [encryptForChain] is [0xENC1] followed by the same digits: four
    characters longer than its [data]. *)
Theorem encrypt_output_format
    (self : HexCrypto) (salt : buffer) (now : Z) (message : jsstring) :
  is_salt salt = true ->
  exists digits : jsstring,
    encrypt self salt message = js "0x" ++ digits
    /\ data (encryptForChain self salt now message) = js "0x" ++ digits
    /\ chainData (encryptForChain self salt now message) = js "0xENC1" ++ digits
    /\ forallb is_lower_hex digits = true
    /\ Nat.even (length digits) = true
    /\ length (chainData (encryptForChain self salt now message))
       = (length (data (encryptForChain self salt now message)) + 4)%nat.
Proof.
  intros Hsalt. apply is_salt_spec in Hsalt as [Hlen Hbytes].
  exists (hex_encode (salt ++ encrypt_loop (key self) salt (Buffer_from_utf8 message))).
  split; [reflexivity|]. split; [reflexivity|]. split; [reflexivity|].
  split; [|split].
  - apply hex_encode_lower.
    rewrite all_bytes_app, Hbytes, encrypt_loop_bytes. reflexivity.
  - rewrite hex_encode_length. apply Nat.even_spec. eexists. reflexivity.
  - unfold encryptForChain, toChainTag, encrypt; cbn [data chainData].
    change (slice 2 (js "0x" ++ ?h)) with h.
    rewrite !length_app.
    change (length (js "0xENC1")) with 6%nat.
    change (length (js "0x")) with 2%nat. lia.
Qed.

Lemma encrypt_output_format_witness :
  exists digits : jsstring,
    encrypt (constructor (SecretString (js "k"))) [1; 2; 3; 4; 5; 6; 7; 8] (js "a")
    = js "0x" ++ digits
    /\ forallb is_lower_hex digits = true.
Proof.
  destruct (encrypt_output_format (constructor (SecretString (js "k")))
              [1; 2; 3; 4; 5; 6; 7; 8] 0 (js "a") eq_refl)
    as (digits & H1 & _ & _ & H2 & _).
  exists digits. split; assumption.
Defined.

(** ** Short input *)

(** X7. What [decrypt] recovers is as long as the decoded data less the
    eight bytes taken as salt; when the hex decoder, which reads each
    character by the low 8 bits of its code unit, gives eight bytes or
    fewer there is nothing left, and [decrypt] returns the empty string
    instead of failing. *)
Theorem decrypt_short_input (self : HexCrypto) (hexString : jsstring) :
  (length (hex_decode (strip_0x hexString)) <= 8)%nat ->
  decrypt self hexString = Normal []
  /\ recovered_bytes self hexString = []
  /\ (forall s : jsstring,
        length (recovered_bytes self s)
        = (length (hex_decode (strip_0x s)) - 8)%nat).
Proof.
  intros Hshort.
  assert (forall s : jsstring,
             length (recovered_bytes self s)
             = (length (hex_decode (strip_0x s)) - 8)%nat) as Hlen.
  { intros s. unfold recovered_bytes.
    rewrite decrypt_loop_length, length_drop. reflexivity. }
  assert (recovered_bytes self hexString = []) as Hnil.
  { apply length_zero_iff_nil. rewrite Hlen. lia. }
  split; [|split; assumption].
  rewrite decrypt_normal, Hnil. reflexivity.
Qed.

(** The theorem at a message of exactly eight bytes: a salt without
    cipher. *)
Lemma decrypt_short_input_witness :
  decrypt (constructor (SecretString (js "test"))) (js "0x0102030405060708")
  = Normal [].
Proof.
  apply (decrypt_short_input (constructor (SecretString (js "test")))
           (js "0x0102030405060708")).
  vm_compute. lia.
Defined.

(** An input that is not short: with U+0166 read as [f] the decoder gives
    ten bytes, two of them left after the salt. *)
Example not_short_by_low_byte :
  length (hex_decode (strip_0x (js "0x0000000000000000a" ++ [0x166] ++ js "bf")))
  = 10%nat
  /\ recovered_bytes (constructor (SecretString (js "test")))
       (js "0x0000000000000000a" ++ [0x166] ++ js "bf") = [72; 105].
Proof. split; vm_compute; reflexivity. Qed.

(** ** Lengths in code units and in bytes *)

Lemma bytes_of_cp_length_bmp (c : Z) :
  c < 0x10000 -> (1 <= length (Utf8.bytes_of_cp c) <= 3)%nat.
Proof.
  intros Hc. unfold Utf8.bytes_of_cp.
  destruct (c <? 0x80); [simpl; lia|].
  destruct (c <? 0x800); [simpl; lia|].
  replace (c <? 0x10000) with true by (symmetry; apply Z.ltb_lt; lia).
  simpl. lia.
Qed.

Lemma bytes_of_cp_length_astral (c : Z) :
  0x10000 <= c -> length (Utf8.bytes_of_cp c) = 4%nat.
Proof.
  intros Hc. unfold Utf8.bytes_of_cp. settle_cmp. reflexivity.
Qed.

Lemma encode_length_bounds (s : jsstring) :
  forallb is_code_unit s = true ->
  (length s <= length (Utf8.encode s) <= 3 * length s)%nat.
Proof.
  induction s as [|u|u v s IH1 IH2] using Utf8Facts.list_ind2; intros H.
  - simpl. lia.
  - simpl in H. unfold is_code_unit in H. cmp_cases.
    change (Utf8.encode [u]) with
      (if Utf8.is_high u then Utf8.bytes_of_cp Utf8.replacement
       else if Utf8.is_low u then Utf8.bytes_of_cp Utf8.replacement ++ []
       else Utf8.bytes_of_cp u ++ []).
    destruct (Utf8.is_high u); [simpl; lia|].
    destruct (Utf8.is_low u); [simpl; lia|].
    rewrite app_nil_r.
    pose proof (bytes_of_cp_length_bmp u ltac:(lia)). simpl length. lia.
  - assert (forallb is_code_unit (v :: s) = true) as Hvs
        by (simpl in H; apply andb_true_iff in H; tauto).
    assert (forallb is_code_unit s = true) as Hs
        by (simpl in Hvs; apply andb_true_iff in Hvs; tauto).
    assert (is_code_unit u = true) as Hu
        by (simpl in H; apply andb_true_iff in H; tauto).
    specialize (IH1 Hs). specialize (IH2 Hvs).
    change (Utf8.encode (u :: v :: s)) with
      (if Utf8.is_high u then
         if Utf8.is_low v then
           Utf8.bytes_of_cp (0x10000 + (u - 0xD800) * 1024 + (v - 0xDC00))
             ++ Utf8.encode s
         else Utf8.bytes_of_cp Utf8.replacement ++ Utf8.encode (v :: s)
       else if Utf8.is_low u then
         Utf8.bytes_of_cp Utf8.replacement ++ Utf8.encode (v :: s)
       else Utf8.bytes_of_cp u ++ Utf8.encode (v :: s)).
    change (length (u :: v :: s)) with (S (S (length s))).
    change (length (v :: s)) with (S (length s)) in IH2.
    destruct (Utf8.is_high u) eqn:Eh; [destruct (Utf8.is_low v) eqn:El|
      destruct (Utf8.is_low u) eqn:El]; rewrite length_app.
    + unfold Utf8.is_high in Eh. unfold Utf8.is_low in El. cmp_cases.
      rewrite bytes_of_cp_length_astral by lia. lia.
    + change (length (Utf8.bytes_of_cp Utf8.replacement)) with 3%nat. lia.
    + change (length (Utf8.bytes_of_cp Utf8.replacement)) with 3%nat. lia.
    + unfold is_code_unit in Hu. cmp_cases.
      pose proof (bytes_of_cp_length_bmp u ltac:(lia)). lia.
Qed.

Lemma encode_ascii (s : jsstring) : is_ascii s = true -> Utf8.encode s = s.
Proof.
  induction s as [|u s IH]; intros H; [reflexivity|].
  simpl in H. apply andb_true_iff in H as [Hu Hs]. cmp_cases.
  simpl. unfold Utf8.is_high, Utf8.is_low, Utf8.bytes_of_cp.
  settle_cmp. simpl. rewrite (IH Hs). reflexivity.
Qed.

Lemma encrypt_length (self : HexCrypto) (salt : buffer) (P : jsstring) :
  length salt = 8%nat ->
  length (encrypt self salt P) = (18 + 2 * length (Buffer_from_utf8 P))%nat.
Proof.
  intros Hsalt. unfold encrypt.
  rewrite length_app, hex_encode_length, length_app, Hsalt, encrypt_loop_length.
  change (length (js "0x")) with 2%nat. lia.
Qed.

(** X8. The [originalLength] that [encryptForChain] records counts UTF-16
    code units, not bytes: the cipher has between one and three times as
    many bytes, so [data] has between [18 + 2 n] and [18 + 6 n] characters
    for [n = originalLength], and exactly [18 + 2 n] for an ASCII
    message. *)
Theorem original_length_bounds
    (self : HexCrypto) (salt : buffer) (now : Z) (message : jsstring) :
  length salt = 8%nat ->
  forallb is_code_unit message = true ->
  originalLength (encryptForChain self salt now message) = length message
  /\ (18 + 2 * length message
      <= length (data (encryptForChain self salt now message))
      <= 18 + 6 * length message)%nat
  /\ (is_ascii message = true ->
      length (data (encryptForChain self salt now message))
      = (18 + 2 * length message)%nat).
Proof.
  intros Hsalt Hunits.
  pose proof (encode_length_bounds message Hunits) as Hb.
  unfold encryptForChain; cbn [data originalLength].
  rewrite encrypt_length by assumption. unfold Buffer_from_utf8 in *.
  split; [reflexivity|]. split; [lia|].
  intros Hascii. rewrite (encode_ascii message Hascii). lia.
Qed.

Lemma original_length_bounds_witness :
  originalLength (encryptForChain (constructor (SecretString (js "k")))
                    [1; 2; 3; 4; 5; 6; 7; 8] 0 [0x4E2D; 0x6587]) = 2%nat
  /\ length (data (encryptForChain (constructor (SecretString (js "k")))
                     [1; 2; 3; 4; 5; 6; 7; 8] 0 [0x4E2D; 0x6587])) = 30%nat
  /\ length (data (encryptForChain (constructor (SecretString (js "k")))
                     [1; 2; 3; 4; 5; 6; 7; 8] 0 (js "ab"))) = 22%nat.
Proof.
  destruct (original_length_bounds (constructor (SecretString (js "k")))
              [1; 2; 3; 4; 5; 6; 7; 8] 0 [0x4E2D; 0x6587] eq_refl eq_refl)
    as (H1 & _ & _).
  destruct (original_length_bounds (constructor (SecretString (js "k")))
              [1; 2; 3; 4; 5; 6; 7; 8] 0 (js "ab") eq_refl eq_refl)
    as (_ & _ & H3).
  split; [exact H1|]. split; [reflexivity|]. apply H3. reflexivity.
Defined.

(** ** The keystream repeats *)

Lemma buf_get_mod_period (buf : buffer) (n i m : nat) :
  length buf = n -> buf_get_mod buf (i + m * n) = buf_get_mod buf i.
Proof.
  intros <-. unfold buf_get_mod.
  destruct (length buf) as [|l] eqn:E; [reflexivity|].
  rewrite Nat.Div0.mod_add. reflexivity.
Qed.

Lemma shift_of_period (i m : nat) : shift_of (i + m * 7) = shift_of i.
Proof. unfold shift_of. rewrite Nat.Div0.mod_add. reflexivity. Qed.

(** X9. Key index, salt index and shift depend on the position modulo 32,
    8 and 7, so the transform repeats every 224 positions: two equal
    plaintext bytes 224 positions apart give equal cipher bytes. *)
Theorem keystream_period (S : secret) (salt pt : buffer) (i : nat) :
  length salt = 8%nat ->
  (i + 224 < length pt)%nat ->
  pt !! (i + 224)%nat = pt !! i ->
  encrypt_loop (key (constructor S)) salt pt !! (i + 224)%nat
  = encrypt_loop (key (constructor S)) salt pt !! i.
Proof.
  intros Hsalt Hi Heq.
  rewrite !encrypt_loop_lookup by lia. f_equal.
  assert (buf_get_mod (key (constructor S)) (i + 224) = buf_get_mod (key (constructor S)) i)
    as Ek by apply (buf_get_mod_period (key (constructor S)) 32 i 7 (key_length S)).
  assert (buf_get_mod salt (i + 224) = buf_get_mod salt i)
    as Es by apply (buf_get_mod_period salt 8 i 28 Hsalt).
  assert (shift_of (i + 224) = shift_of i)
    as Er by apply (shift_of_period i 32).
  unfold encrypt_byte, buf_get. rewrite Heq, Ek, Es, Er. reflexivity.
Qed.

Lemma keystream_period_witness :
  encrypt_loop (key (constructor (SecretString (js "test")))) [1; 2; 3; 4; 5; 6; 7; 8]
    (replicate 225 65) !! 224%nat
  = encrypt_loop (key (constructor (SecretString (js "test")))) [1; 2; 3; 4; 5; 6; 7; 8]
      (replicate 225 65) !! 0%nat.
Proof.
  apply (keystream_period (SecretString (js "test")) [1; 2; 3; 4; 5; 6; 7; 8]
           (replicate 225 65) 0); [reflexivity | vm_compute; lia | reflexivity].
Defined.

(** ** Letter case of the hex input *)

Lemma unhex_hex_upper (c : Z) : unhex (hex_upper c) = unhex c.
Proof.
  unfold hex_upper.
  destruct ((97 <=? c) && (c <=? 102)) eqn:E; [|reflexivity].
  cmp_cases. unfold unhex.
  rewrite (Z.mod_small c 256), (Z.mod_small (c - 32) 256) by lia.
  unfold unhex_table. settle_cmp. simpl. f_equal. lia.
Qed.

Lemma hex_decode_upper (s : jsstring) :
  hex_decode (map hex_upper s) = hex_decode s.
Proof.
  induction s as [|a|a b s IH _] using Utf8Facts.list_ind2; try reflexivity.
  simpl. rewrite !unhex_hex_upper, IH. reflexivity.
Qed.

Lemma hex_upper_eq (c d : Z) :
  ~ (97 <= d <= 102) -> ~ (65 <= d <= 70) -> (hex_upper c =? d) = (c =? d).
Proof.
  intros H1 H2. unfold hex_upper.
  destruct ((97 <=? c) && (c <=? 102)) eqn:E; [|reflexivity].
  cmp_cases.
  replace (c - 32 =? d) with false by (symmetry; apply Z.eqb_neq; lia).
  symmetry. apply Z.eqb_neq. lia.
Qed.

Lemma strip_0x_upper (s : jsstring) :
  strip_0x (map hex_upper s) = map hex_upper (strip_0x s).
Proof.
  unfold strip_0x.
  destruct s as [|a [|b s]]; try reflexivity.
  - simpl. rewrite !andb_false_r. reflexivity.
  - change (startsWith (map hex_upper (a :: b :: s)) (js "0x"))
      with ((hex_upper a =? 48) && ((hex_upper b =? 120) && true)).
    change (startsWith (a :: b :: s) (js "0x"))
      with ((a =? 48) && ((b =? 120) && true)).
    rewrite !hex_upper_eq by lia.
    destruct ((a =? 48) && ((b =? 120) && true)); reflexivity.
Qed.

(** X10. The hex digits of the input may be in either case: [decrypt] and
    [hexToString] give the same result on a string and on the string with
    its letters [a-f] in upper case. The prefix is not so forgiving: after
    an upper-case [0X] no byte is decoded and the result is the empty
    string. *)
Theorem hex_case_insensitive (self : HexCrypto) (hexString : jsstring) :
  decrypt self (map hex_upper hexString) = decrypt self hexString
  /\ hexToString (map hex_upper hexString) = hexToString hexString
  /\ decrypt self (js "0X" ++ hexString) = Normal []
  /\ hexToString (js "0X" ++ hexString) = Normal [].
Proof.
  assert (hex_decode (strip_0x (map hex_upper hexString))
          = hex_decode (strip_0x hexString)) as H
      by (rewrite strip_0x_upper; apply hex_decode_upper).
  split; [|split; [|split; reflexivity]].
  - rewrite !decrypt_normal. unfold recovered_bytes. rewrite H. reflexivity.
  - unfold hexToString, Buffer_from_hex, bind. rewrite H. reflexivity.
Qed.

(** ** Different plaintexts, different outputs *)

(** X11. [encrypt] never gives the same output for two different
    plaintexts without unpaired surrogates, whichever 8-byte salts it
    draws for them. *)
Theorem encrypt_injective
    (S : secret) (salt1 salt2 : buffer) (P1 P2 : jsstring) :
  is_salt salt1 = true -> is_salt salt2 = true ->
  Utf8.well_formed P1 = true -> Utf8.well_formed P2 = true ->
  P1 <> P2 ->
  encrypt (constructor S) salt1 P1 <> encrypt (constructor S) salt2 P2.
Proof.
  intros H1 H2 W1 W2 Hne Heq. apply Hne.
  pose proof (decrypt_encrypt (constructor S) salt1 P1 (key_bytes S) H1 W1) as D1.
  pose proof (decrypt_encrypt (constructor S) salt2 P2 (key_bytes S) H2 W2) as D2.
  rewrite Heq in D1. rewrite D1 in D2. congruence.
Qed.

Lemma encrypt_injective_witness :
  encrypt (constructor (SecretString (js "test"))) [0; 0; 0; 0; 0; 0; 0; 0] (js "yes")
  <> encrypt (constructor (SecretString (js "test"))) [0; 0; 0; 0; 0; 0; 0; 0] (js "no").
Proof.
  apply (encrypt_injective (SecretString (js "test"))
           [0; 0; 0; 0; 0; 0; 0; 0] [0; 0; 0; 0; 0; 0; 0; 0] (js "yes") (js "no"));
    [reflexivity | reflexivity | reflexivity | reflexivity | discriminate].
Defined.

(** ** What the UTF-8 decoder can return *)

Lemma well_formed_app (a b : jsstring) :
  Utf8.well_formed a = true -> Utf8.well_formed b = true ->
  Utf8.well_formed (a ++ b) = true.
Proof.
  intros Ha Hb. revert Ha.
  induction a as [|u|u v l IH1 IH2] using Utf8Facts.list_ind2; intros Ha.
  - assumption.
  - change (Utf8.well_formed [u]) with
      (if Utf8.is_high u then false
       else negb (Utf8.is_low u) && is_code_unit u && true) in Ha.
    change (Utf8.well_formed ([u] ++ b)) with
      (if Utf8.is_high u then
         match b with
         | v :: rest' => Utf8.is_low v && Utf8.well_formed rest'
         | [] => false
         end
       else negb (Utf8.is_low u) && is_code_unit u && Utf8.well_formed b).
    destruct (Utf8.is_high u); [discriminate|].
    rewrite andb_true_r in Ha. rewrite Ha, Hb. reflexivity.
  - change (Utf8.well_formed (u :: v :: l)) with
      (if Utf8.is_high u then Utf8.is_low v && Utf8.well_formed l
       else negb (Utf8.is_low u) && is_code_unit u && Utf8.well_formed (v :: l)) in Ha.
    change (Utf8.well_formed ((u :: v :: l) ++ b)) with
      (if Utf8.is_high u then Utf8.is_low v && Utf8.well_formed (l ++ b)
       else negb (Utf8.is_low u) && is_code_unit u
            && Utf8.well_formed ((v :: l) ++ b)).
    destruct (Utf8.is_high u); apply andb_true_iff in Ha as [H1 H2];
      rewrite H1; [rewrite (IH1 H2) | rewrite (IH2 H2)]; reflexivity.
Qed.

Lemma units_of_cp_well_formed (c : Z) :
  Utf8.is_scalar c -> Utf8.well_formed (Utf8.units_of_cp c) = true.
Proof.
  intros [Hc Hs]. unfold Utf8.units_of_cp.
  destruct (c <? 0x10000) eqn:E; cmp_cases.
  - simpl. unfold Utf8.is_high, Utf8.is_low, is_code_unit.
    destruct (Z.le_gt_cases 0xD800 c); settle_cmp; reflexivity.
  - pose proof (Z.mod_pos_bound (c - 0x10000) 1024 ltac:(lia)) as Hm.
    assert (0 <= (c - 0x10000) / 1024 < 1024) as Hd
        by (split; [apply Z.div_pos; lia | apply Z.div_lt_upper_bound; lia]).
    simpl. unfold Utf8.is_high, Utf8.is_low. settle_cmp. reflexivity.
Qed.

Lemma replacement_well_formed : Utf8.well_formed [Utf8.replacement] = true.
Proof. reflexivity. Qed.

(** A lead byte leaves the automaton in a state it can be in, and what it
    reports then is well formed. *)
Lemma lead_ok (b : Z) :
  0 <= b < 256 ->
  state_ok (fst (Utf8.lead b))
  /\ Utf8.well_formed (Utf8.units_of_emission (snd (Utf8.lead b))) = true.
Proof.
  intros Hb. unfold Utf8.lead.
  destruct (b <=? 0x7F) eqn:E1;
    [|destruct ((0xC2 <=? b) && (b <=? 0xDF)) eqn:E2;
      [|destruct ((0xE0 <=? b) && (b <=? 0xEF)) eqn:E3;
        [|destruct ((0xF0 <=? b) && (b <=? 0xF4)) eqn:E4]]];
    cbn [fst snd Utf8.units_of_emission state_ok].
  - split; [exact I|]. apply units_of_cp_well_formed.
    cmp_cases. unfold Utf8.is_scalar. lia.
  - clear E1. split; [|reflexivity]. cmp_cases. lia.
  - clear E1 E2. split; [|reflexivity]. left. cmp_cases.
    split; [lia|].
    destruct (b =? 0xE0) eqn:Ea; destruct (b =? 0xED) eqn:Ed; cmp_cases;
      try lia; settle_cmp; split; reflexivity.
  - clear E1 E2 E3. split; [|reflexivity]. cmp_cases.
    split; [lia|].
    destruct (b =? 0xF0) eqn:Ea; destruct (b =? 0xF4) eqn:Ed; cmp_cases;
      try lia; settle_cmp; split; reflexivity.
  - split; [exact I | reflexivity].
Qed.

(** A continuation byte in range keeps the automaton in such a state, or
    completes a scalar value. *)
Lemma continue_ok (c : Z) (due : nat) (lo hi b : Z) :
  state_ok (Utf8.Pending c due lo hi) ->
  lo <= b <= hi ->
  match due with
  | S (S d) => state_ok (Utf8.Pending (c * 64 + (b - 0x80)) (S d) 0x80 0xBF)
  | _ => Utf8.is_scalar (c * 64 + (b - 0x80))
  end.
Proof.
  intros Hst Hb.
  destruct due as [|[|[|[|d]]]]; cbn [state_ok] in *; try contradiction.
  - destruct Hst as (-> & -> & Hc & Hs). unfold Utf8.is_scalar. lia.
  - destruct Hst as [(Hc & -> & ->)|(Hc & -> & ->)]; [|lia].
    destruct (c =? 0) eqn:E0; destruct (c =? 13) eqn:E13; cmp_cases; lia.
  - destruct Hst as (Hc & -> & ->). right.
    destruct (c =? 0) eqn:E0; destruct (c =? 4) eqn:E4; cmp_cases; lia.
Qed.

Lemma run_well_formed (bs : buffer) :
  all_bytes bs = true ->
  forall st, state_ok st ->
    Utf8.well_formed (flat_map Utf8.units_of_emission (Utf8.run st bs)) = true.
Proof.
  induction bs as [|b rest IH]; intros Hbytes st Hst.
  - destruct st; reflexivity.
  - simpl in Hbytes. apply andb_true_iff in Hbytes as [Hb Hrest].
    apply is_byte_spec in Hb.
    destruct (lead_ok b Hb) as [Lst Lwf].
    assert (Utf8.well_formed
              (flat_map Utf8.units_of_emission
                 (snd (Utf8.lead b) :: Utf8.run (fst (Utf8.lead b)) rest)) = true)
      as Hlead.
    { cbn [flat_map]. apply well_formed_app; [assumption|]. apply IH; assumption. }
    destruct st as [|c due lo hi]; [exact Hlead|].
    cbn [Utf8.run].
    destruct ((lo <=? b) && (b <=? hi)) eqn:E.
    + cmp_cases.
      pose proof (continue_ok c due lo hi b Hst ltac:(lia)) as Hnext.
      destruct due as [|[|d]].
      * cbn [flat_map Utf8.units_of_emission].
        apply well_formed_app; [apply units_of_cp_well_formed; assumption|].
        apply IH; [assumption | exact I].
      * cbn [flat_map Utf8.units_of_emission].
        apply well_formed_app; [apply units_of_cp_well_formed; assumption|].
        apply IH; [assumption | exact I].
      * cbn [flat_map Utf8.units_of_emission app].
        apply IH; assumption.
    + change (flat_map Utf8.units_of_emission
                (Utf8.Malformed :: snd (Utf8.lead b) :: Utf8.run (fst (Utf8.lead b)) rest))
        with ([Utf8.replacement]
                ++ flat_map Utf8.units_of_emission
                     (snd (Utf8.lead b) :: Utf8.run (fst (Utf8.lead b)) rest)).
      apply well_formed_app; [reflexivity | exact Hlead].
Qed.

Lemma decode_well_formed (bs : buffer) :
  all_bytes bs = true -> Utf8.well_formed (Utf8.decode bs) = true.
Proof.
  intros H. unfold Utf8.decode. apply run_well_formed; [assumption | exact I].
Qed.

Lemma decrypt_loop_bytes (k salt enc : buffer) :
  all_bytes (decrypt_loop k salt enc) = true.
Proof.
  unfold decrypt_loop. rewrite for_loop_fill. apply all_bytes_spec.
  intros b Hb. apply in_map_iff in Hb as (i & <- & _).
  apply Z.mod_pos_bound. lia.
Qed.

(** X12. Whatever string they are given and whatever the key,
    [decrypt], [decryptFromChain] and [hexToString] return a string in
    which every surrogate code unit is paired: garbage bytes never come
    out as an ill-formed string. *)
Theorem decrypt_output_well_formed (self : HexCrypto) (input : jsstring) :
  exists out chainOut plain : jsstring,
    decrypt self input = Normal out
    /\ decryptFromChain self input = Normal chainOut
    /\ hexToString input = Normal plain
    /\ Utf8.well_formed out = true
    /\ Utf8.well_formed chainOut = true
    /\ Utf8.well_formed plain = true.
Proof.
  exists (Utf8.decode (recovered_bytes self input)),
         (Utf8.decode (recovered_bytes self (fromChainTag input))),
         (Utf8.decode (hex_decode (strip_0x input))).
  split; [apply decrypt_normal|].
  split; [apply decryptFromChain_normal|].
  split; [reflexivity|].
  split; [|split]; apply decode_well_formed;
    first [apply decrypt_loop_bytes | apply hex_decode_bytes].
Qed.

(** ** The round trip of any string *)

Lemma decode_replacement (rest : buffer) :
  Utf8.decode (Utf8.bytes_of_cp Utf8.replacement ++ rest)
  = Utf8.replacement :: Utf8.decode rest.
Proof.
  rewrite Utf8Facts.decode_bytes_of_cp by apply Utf8Facts.replacement_scalar.
  reflexivity.
Qed.

(** Decoding the bytes of any string gives the string with its unpaired
    surrogates replaced. *)
Lemma decode_encode_sanitize (s : jsstring) :
  forallb is_code_unit s = true -> Utf8.decode (Utf8.encode s) = sanitize s.
Proof.
  induction s as [|u|u v s IH1 IH2] using Utf8Facts.list_ind2; intros H.
  - reflexivity.
  - simpl in H. unfold is_code_unit in H. cmp_cases.
    change (Utf8.encode [u]) with
      (if Utf8.is_high u then Utf8.bytes_of_cp Utf8.replacement
       else if Utf8.is_low u then Utf8.bytes_of_cp Utf8.replacement ++ []
       else Utf8.bytes_of_cp u ++ []).
    change (sanitize [u]) with
      (if Utf8.is_high u then [Utf8.replacement]
       else if Utf8.is_low u then [Utf8.replacement] else [u]).
    destruct (Utf8.is_high u) eqn:Eh; [reflexivity|].
    destruct (Utf8.is_low u) eqn:El; [reflexivity|].
    unfold Utf8.is_high, Utf8.is_low in *.
    cmp_cases;
      (rewrite Utf8Facts.decode_bytes_of_cp by (unfold Utf8.is_scalar; lia));
      unfold Utf8.units_of_cp; settle_cmp; reflexivity.
  - assert (forallb is_code_unit (v :: s) = true) as Hvs
        by (simpl in H; apply andb_true_iff in H; tauto).
    assert (forallb is_code_unit s = true) as Hs
        by (simpl in Hvs; apply andb_true_iff in Hvs; tauto).
    assert (is_code_unit u = true) as Hu
        by (simpl in H; apply andb_true_iff in H; tauto).
    change (Utf8.encode (u :: v :: s)) with
      (if Utf8.is_high u then
         if Utf8.is_low v then
           Utf8.bytes_of_cp (0x10000 + (u - 0xD800) * 1024 + (v - 0xDC00))
             ++ Utf8.encode s
         else Utf8.bytes_of_cp Utf8.replacement ++ Utf8.encode (v :: s)
       else if Utf8.is_low u then
         Utf8.bytes_of_cp Utf8.replacement ++ Utf8.encode (v :: s)
       else Utf8.bytes_of_cp u ++ Utf8.encode (v :: s)).
    change (sanitize (u :: v :: s)) with
      (if Utf8.is_high u then
         if Utf8.is_low v then u :: v :: sanitize s
         else Utf8.replacement :: sanitize (v :: s)
       else if Utf8.is_low u then Utf8.replacement :: sanitize (v :: s)
       else u :: sanitize (v :: s)).
    destruct (Utf8.is_high u) eqn:Eh; [destruct (Utf8.is_low v) eqn:El|
      destruct (Utf8.is_low u) eqn:El].
    + rewrite Utf8Facts.decode_bytes_of_cp by (apply Utf8Facts.pair_scalar; assumption).
      rewrite Utf8Facts.units_of_pair by assumption.
      rewrite (IH1 Hs). reflexivity.
    + rewrite decode_replacement, (IH2 Hvs). reflexivity.
    + rewrite decode_replacement, (IH2 Hvs). reflexivity.
    + unfold Utf8.is_high, Utf8.is_low, is_code_unit in *.
      cmp_cases;
        (rewrite Utf8Facts.decode_bytes_of_cp by (unfold Utf8.is_scalar; lia));
        rewrite (IH2 Hvs); unfold Utf8.units_of_cp; settle_cmp; reflexivity.
Qed.

Lemma sanitize_well_formed_id (s : jsstring) :
  Utf8.well_formed s = true -> sanitize s = s.
Proof.
  induction s as [|u|u v s IH1 IH2] using Utf8Facts.list_ind2; intros H.
  - reflexivity.
  - simpl in *. destruct (Utf8.is_high u); [discriminate|].
    apply andb_true_iff in H as [H _]. apply andb_true_iff in H as [H _].
    apply negb_true_iff in H. rewrite H. reflexivity.
  - change (Utf8.well_formed (u :: v :: s)) with
      (if Utf8.is_high u then Utf8.is_low v && Utf8.well_formed s
       else negb (Utf8.is_low u) && is_code_unit u && Utf8.well_formed (v :: s)) in H.
    change (sanitize (u :: v :: s)) with
      (if Utf8.is_high u then
         if Utf8.is_low v then u :: v :: sanitize s
         else Utf8.replacement :: sanitize (v :: s)
       else if Utf8.is_low u then Utf8.replacement :: sanitize (v :: s)
       else u :: sanitize (v :: s)).
    destruct (Utf8.is_high u).
    + apply andb_true_iff in H as [Hv Hs]. rewrite Hv, (IH1 Hs). reflexivity.
    + apply andb_true_iff in H as [H Hs]. apply andb_true_iff in H as [H _].
      apply negb_true_iff in H. rewrite H, (IH2 Hs). reflexivity.
Qed.

Lemma sanitize_length (s : jsstring) : length (sanitize s) = length s.
Proof.
  induction s as [|u|u v s IH1 IH2] using Utf8Facts.list_ind2.
  - reflexivity.
  - simpl. destruct (Utf8.is_high u); [reflexivity|].
    destruct (Utf8.is_low u); reflexivity.
  - change (sanitize (u :: v :: s)) with
      (if Utf8.is_high u then
         if Utf8.is_low v then u :: v :: sanitize s
         else Utf8.replacement :: sanitize (v :: s)
       else if Utf8.is_low u then Utf8.replacement :: sanitize (v :: s)
       else u :: sanitize (v :: s)).
    destruct (Utf8.is_high u); [destruct (Utf8.is_low v)|destruct (Utf8.is_low u)];
      simpl length in *; rewrite ?IH1, ?IH2; reflexivity.
Qed.

Lemma sanitize_well_formed (s : jsstring) :
  forallb is_code_unit s = true -> Utf8.well_formed (sanitize s) = true.
Proof.
  intros H. rewrite <- decode_encode_sanitize by assumption.
  apply decode_well_formed. apply Utf8Facts.encode_bytes. assumption.
Qed.

(** X13. For every plaintext string, paired surrogates or not, decrypting
    what [encrypt] gave returns the plaintext with each unpaired surrogate
    replaced by U+FFFD and every other code unit in place; the same holds
    for [hexToString] after [stringToHex]. The result has the length of
    the plaintext and no unpaired surrogate, so it is the plaintext itself
    exactly when the plaintext had none. *)
Theorem roundtrip_replaces_unpaired_surrogates
    (S : secret) (salt : buffer) (P : jsstring) :
  is_salt salt = true ->
  forallb is_code_unit P = true ->
  decrypt (constructor S) (encrypt (constructor S) salt P) = Normal (sanitize P)
  /\ hexToString (stringToHex P) = Normal (sanitize P)
  /\ length (sanitize P) = length P
  /\ Utf8.well_formed (sanitize P) = true
  /\ (sanitize P = P <-> Utf8.well_formed P = true).
Proof.
  intros Hsalt HP.
  pose proof (Utf8Facts.encode_bytes P HP) as Hbytes.
  split; [|split; [|split; [|split]]].
  - unfold decrypt. rewrite decode_encrypt by assumption. unfold bind, fst, snd.
    apply is_salt_spec in Hsalt as [_ Hs].
    unfold Buffer_from_utf8.
    rewrite decrypt_encrypt_loop by auto using key_bytes.
    unfold Buffer_toString_utf8. rewrite decode_encode_sanitize by assumption.
    reflexivity.
  - unfold hexToString, stringToHex, Buffer_from_hex, Buffer_from_utf8, bind.
    rewrite strip_0x_prefixed, hex_decode_encode by assumption.
    unfold Buffer_toString_utf8. rewrite decode_encode_sanitize by assumption.
    reflexivity.
  - apply sanitize_length.
  - apply sanitize_well_formed. assumption.
  - split; [|apply sanitize_well_formed_id].
    intros Heq. rewrite <- Heq. apply sanitize_well_formed. assumption.
Qed.

(** The theorem at a string with one paired and one unpaired surrogate. *)
Lemma roundtrip_replaces_unpaired_surrogates_witness :
  decrypt (constructor (SecretString (js "test")))
    (encrypt (constructor (SecretString (js "test"))) [1; 2; 3; 4; 5; 6; 7; 8]
       [65; 0xD83D; 0xDE00; 0xD83D; 66])
  = Normal [65; 0xD83D; 0xDE00; 0xFFFD; 66].
Proof.
  apply (roundtrip_replaces_unpaired_surrogates (SecretString (js "test"))
           [1; 2; 3; 4; 5; 6; 7; 8] [65; 0xD83D; 0xDE00; 0xD83D; 66]); reflexivity.
Defined.

(** ** From bytes to a string and back *)

Lemma encode_app (a b : jsstring) :
  Utf8.well_formed a = true ->
  Utf8.encode (a ++ b) = Utf8.encode a ++ Utf8.encode b.
Proof.
  induction a as [|u|u v l IH1 IH2] using Utf8Facts.list_ind2; intros Ha.
  - reflexivity.
  - change (Utf8.well_formed [u]) with
      (if Utf8.is_high u then false
       else negb (Utf8.is_low u) && is_code_unit u && true) in Ha.
    change (Utf8.encode ([u] ++ b)) with
      (if Utf8.is_high u then
         match b with
         | v :: rest' =>
             if Utf8.is_low v then
               Utf8.bytes_of_cp (0x10000 + (u - 0xD800) * 1024 + (v - 0xDC00))
                 ++ Utf8.encode rest'
             else Utf8.bytes_of_cp Utf8.replacement ++ Utf8.encode b
         | [] => Utf8.bytes_of_cp Utf8.replacement
         end
       else if Utf8.is_low u then Utf8.bytes_of_cp Utf8.replacement ++ Utf8.encode b
       else Utf8.bytes_of_cp u ++ Utf8.encode b).
    change (Utf8.encode [u]) with
      (if Utf8.is_high u then Utf8.bytes_of_cp Utf8.replacement
       else if Utf8.is_low u then Utf8.bytes_of_cp Utf8.replacement ++ []
       else Utf8.bytes_of_cp u ++ []).
    destruct (Utf8.is_high u); [discriminate|].
    destruct (Utf8.is_low u); [discriminate|].
    rewrite app_nil_r. reflexivity.
  - change (Utf8.well_formed (u :: v :: l)) with
      (if Utf8.is_high u then Utf8.is_low v && Utf8.well_formed l
       else negb (Utf8.is_low u) && is_code_unit u && Utf8.well_formed (v :: l)) in Ha.
    change (Utf8.encode ((u :: v :: l) ++ b)) with
      (if Utf8.is_high u then
         if Utf8.is_low v then
           Utf8.bytes_of_cp (0x10000 + (u - 0xD800) * 1024 + (v - 0xDC00))
             ++ Utf8.encode (l ++ b)
         else Utf8.bytes_of_cp Utf8.replacement ++ Utf8.encode ((v :: l) ++ b)
       else if Utf8.is_low u then
         Utf8.bytes_of_cp Utf8.replacement ++ Utf8.encode ((v :: l) ++ b)
       else Utf8.bytes_of_cp u ++ Utf8.encode ((v :: l) ++ b)).
    change (Utf8.encode (u :: v :: l)) with
      (if Utf8.is_high u then
         if Utf8.is_low v then
           Utf8.bytes_of_cp (0x10000 + (u - 0xD800) * 1024 + (v - 0xDC00))
             ++ Utf8.encode l
         else Utf8.bytes_of_cp Utf8.replacement ++ Utf8.encode (v :: l)
       else if Utf8.is_low u then
         Utf8.bytes_of_cp Utf8.replacement ++ Utf8.encode (v :: l)
       else Utf8.bytes_of_cp u ++ Utf8.encode (v :: l)).
    destruct (Utf8.is_high u).
    + apply andb_true_iff in Ha as [Hv Hl]. rewrite Hv, (IH1 Hl).
      apply app_assoc.
    + apply andb_true_iff in Ha as [Ha Hl]. apply andb_true_iff in Ha as [Ha _].
      apply negb_true_iff in Ha. rewrite Ha, (IH2 Hl). apply app_assoc.
Qed.

Lemma encode_units_of_cp (c : Z) :
  Utf8.is_scalar c -> Utf8.encode (Utf8.units_of_cp c) = Utf8.bytes_of_cp c.
Proof.
  intros Hc.
  pose proof (units_of_cp_well_formed c Hc) as Hwf.
  pose proof (Utf8Facts.decode_encode _ Hwf) as Hrt.
  destruct Hc as [Hc Hs]. unfold Utf8.units_of_cp in *.
  destruct (c <? 0x10000) eqn:E; cmp_cases.
  - simpl. unfold Utf8.is_high, Utf8.is_low.
    destruct (Z.le_gt_cases 0xD800 c); settle_cmp; apply app_nil_r.
  - pose proof (Z.mod_pos_bound (c - 0x10000) 1024 ltac:(lia)) as Hm.
    pose proof (Z.div_mod (c - 0x10000) 1024 ltac:(lia)) as Hdm.
    assert (0 <= (c - 0x10000) / 1024 < 1024) as Hd
        by (split; [apply Z.div_pos; lia | apply Z.div_lt_upper_bound; lia]).
    simpl. unfold Utf8.is_high, Utf8.is_low. settle_cmp.
    rewrite app_nil_r. f_equal. lia.
Qed.

Lemma divmod64 (c x : Z) :
  0 <= x < 64 -> (c * 64 + x) / 64 = c /\ (c * 64 + x) mod 64 = x.
Proof.
  intros Hx. split.
  - rewrite Z.add_comm, Z.div_add by lia. rewrite Z.div_small by lia. lia.
  - rewrite Z.add_comm, Z.mod_add by lia. apply Z.mod_small. lia.
Qed.

(** A lead byte that is not malformed is what the automaton has read: as
    a complete character or as the start of one. *)
Lemma lead_consumed (b : Z) :
  0 <= b < 256 ->
  Utf8.is_malformed (snd (Utf8.lead b)) = false ->
  Utf8.encode (Utf8.units_of_emission (snd (Utf8.lead b)))
    ++ consumed (fst (Utf8.lead b)) = [b].
Proof.
  intros Hb. unfold Utf8.lead.
  destruct (b <=? 0x7F) eqn:E1;
    [|destruct ((0xC2 <=? b) && (b <=? 0xDF)) eqn:E2;
      [|destruct ((0xE0 <=? b) && (b <=? 0xEF)) eqn:E3;
        [|destruct ((0xF0 <=? b) && (b <=? 0xF4)) eqn:E4]]];
    cbn [fst snd Utf8.units_of_emission Utf8.is_malformed consumed];
    intros Hclean; try discriminate.
  - cmp_cases. rewrite encode_units_of_cp by (unfold Utf8.is_scalar; lia).
    unfold Utf8.bytes_of_cp. settle_cmp. reflexivity.
  - clear E1. cmp_cases. settle_cmp. simpl. f_equal. lia.
  - clear E1 E2. cmp_cases. settle_cmp. simpl. f_equal. lia.
  - clear E1 E2 E3. cmp_cases. simpl. f_equal. lia.
Qed.

Lemma continue_consumed (c : Z) (due : nat) (lo hi b : Z) :
  state_ok (Utf8.Pending c due lo hi) ->
  lo <= b <= hi ->
  match due with
  | S (S d) =>
      consumed (Utf8.Pending (c * 64 + (b - 0x80)) (S d) 0x80 0xBF)
      = consumed (Utf8.Pending c due lo hi) ++ [b]
  | _ =>
      Utf8.bytes_of_cp (c * 64 + (b - 0x80))
      = consumed (Utf8.Pending c due lo hi) ++ [b]
  end.
Proof.
  intros Hst Hb.
  destruct due as [|[|[|[|d]]]]; cbn [state_ok consumed] in *; try contradiction.
  - destruct Hst as (-> & -> & Hc & Hs).
    destruct (divmod64 c (b - 0x80) ltac:(lia)) as [Hq Hr].
    unfold Utf8.bytes_of_cp.
    destruct (c <? 32) eqn:E1; [|destruct (c <? 1024) eqn:E2]; cmp_cases.
    + settle_cmp. rewrite Hq, Hr. simpl. f_equal. f_equal. lia.
    + settle_cmp.
      change 4096 with (64 * 64). rewrite <- Z.div_div, Hq, Hr by lia.
      pose proof (Z.mod_pos_bound c 64 ltac:(lia)).
      simpl. f_equal. f_equal. f_equal. lia.
    + settle_cmp.
      change 262144 with (64 * 4096). change 4096 with (64 * 64) at 2.
      rewrite <- !Z.div_div, Hq, Hr by lia.
      change (64 * 64) with 4096.
      simpl. f_equal. f_equal. f_equal. f_equal. lia.
  - destruct (divmod64 c (b - 0x80)) as [Hq Hr].
    { destruct Hst as [(Hc & -> & ->)|(Hc & -> & ->)]; [|lia].
      destruct (c =? 0); destruct (c =? 13); lia. }
    destruct Hst as [(Hc & -> & ->)|(Hc & -> & ->)].
    + assert (32 <= c * 64 + (b - 128) < 1024) as Hr'
          by (destruct (c =? 0) eqn:E0; destruct (c =? 13) eqn:E13; cmp_cases; lia).
      settle_cmp. rewrite Hq, Hr. simpl. f_equal. f_equal. lia.
    + settle_cmp.
      change 4096 with (64 * 64). rewrite <- Z.div_div, Hq, Hr by lia.
      simpl. f_equal. f_equal. f_equal. lia.
  - destruct Hst as (Hc & -> & ->).
    assert (16 <= c * 64 + (b - 128) /\ 0 <= b - 128 < 64) as [Hr' Hx]
        by (destruct (c =? 0) eqn:E0; destruct (c =? 4) eqn:E4; cmp_cases; lia).
    destruct (divmod64 c (b - 0x80) Hx) as [Hq Hr].
    settle_cmp. rewrite Hq, Hr. simpl. f_equal. f_equal. lia.
Qed.

(** When the automaton reports nothing malformed, encoding what it decoded
    gives back the bytes it has read. *)
Lemma encode_run (bs : buffer) :
  all_bytes bs = true ->
  forall st, state_ok st ->
    clean (Utf8.run st bs) = true ->
    Utf8.encode (flat_map Utf8.units_of_emission (Utf8.run st bs))
    = consumed st ++ bs.
Proof.
  induction bs as [|b rest IH]; intros Hbytes st Hst Hclean.
  - destruct st; [reflexivity | discriminate].
  - simpl in Hbytes. apply andb_true_iff in Hbytes as [Hb Hrest].
    apply is_byte_spec in Hb.
    destruct (lead_ok b Hb) as [Lst Lwf].
    destruct st as [|c due lo hi].
    + cbn [Utf8.run clean forallb] in Hclean.
      apply andb_true_iff in Hclean as [H1 H2].
      apply negb_true_iff in H1.
      cbn [Utf8.run flat_map consumed app].
      rewrite encode_app by assumption.
      rewrite (IH Hrest _ Lst H2).
      rewrite app_assoc, (lead_consumed b Hb H1). reflexivity.
    + cbn [Utf8.run] in *.
      destruct ((lo <=? b) && (b <=? hi)) eqn:E; [|discriminate].
      cmp_cases.
      pose proof (continue_ok c due lo hi b Hst ltac:(lia)) as Hnext.
      pose proof (continue_consumed c due lo hi b Hst ltac:(lia)) as Hcons.
      destruct due as [|[|d]].
      * cbn [clean forallb] in Hclean. apply andb_true_iff in Hclean as [_ H2].
        cbn [flat_map Utf8.units_of_emission].
        rewrite encode_app by (apply units_of_cp_well_formed; assumption).
        rewrite encode_units_of_cp by assumption.
        rewrite (IH Hrest Utf8.Idle I H2), Hcons.
        rewrite <- app_assoc. reflexivity.
      * cbn [clean forallb] in Hclean. apply andb_true_iff in Hclean as [_ H2].
        cbn [flat_map Utf8.units_of_emission].
        rewrite encode_app by (apply units_of_cp_well_formed; assumption).
        rewrite encode_units_of_cp by assumption.
        rewrite (IH Hrest Utf8.Idle I H2), Hcons.
        rewrite <- app_assoc. reflexivity.
      * cbn [clean forallb] in Hclean. apply andb_true_iff in Hclean as [_ H2].
        cbn [flat_map Utf8.units_of_emission app].
        rewrite (IH Hrest _ Hnext H2), Hcons.
        rewrite <- app_assoc. reflexivity.
Qed.

Lemma encode_decode_valid (bs : buffer) :
  all_bytes bs = true -> Utf8.valid bs = true ->
  Utf8.encode (Utf8.decode bs) = bs.
Proof.
  intros Hbytes Hvalid. unfold Utf8.decode.
  apply (encode_run bs Hbytes Utf8.Idle I Hvalid).
Qed.

Lemma hex_encode_injective (a b : buffer) :
  all_bytes a = true -> all_bytes b = true ->
  hex_encode a = hex_encode b -> a = b.
Proof.
  intros Ha Hb Heq.
  rewrite <- (hex_decode_encode a Ha), <- (hex_decode_encode b Hb), Heq.
  reflexivity.
Qed.

(** X14. [stringToHex] undoes [hexToString] exactly on valid UTF-8: for a
    hex string [0x...] of lowercase digits, turning it into text and the
    text back into hex gives the same hex string if and only if its bytes
    are valid UTF-8. *)
Theorem stringToHex_after_hexToString (bs : buffer) :
  all_bytes bs = true ->
  exists text : jsstring,
    hexToString (js "0x" ++ hex_encode bs) = Normal text
    /\ (stringToHex text = js "0x" ++ hex_encode bs <-> Utf8.valid bs = true).
Proof.
  intros Hbytes. exists (Utf8.decode bs). split.
  - unfold hexToString, Buffer_from_hex, bind.
    rewrite strip_0x_prefixed, hex_decode_encode by assumption. reflexivity.
  - unfold stringToHex, Buffer_from_utf8.
    assert (forallb is_code_unit (Utf8.decode bs) = true) as Hunits
        by (apply Utf8Facts.well_formed_units, decode_well_formed; assumption).
    split.
    + intros Heq. apply app_inv_head in Heq.
      apply hex_encode_injective in Heq;
        [|apply Utf8Facts.encode_bytes; assumption | assumption].
      rewrite <- Heq. apply Utf8Facts.encode_valid. assumption.
    + intros Hvalid. rewrite encode_decode_valid by assumption. reflexivity.
Qed.

(** The theorem at the bytes of "Hi" followed by a euro sign. *)
Lemma stringToHex_after_hexToString_witness :
  hexToString (js "0x4869e282ac") = Normal [72; 105; 0x20AC]
  /\ stringToHex [72; 105; 0x20AC] = js "0x4869e282ac".
Proof.
  destruct (stringToHex_after_hexToString [0x48; 0x69; 0xE2; 0x82; 0xAC] eq_refl)
    as (text & H1 & H2).
  assert (text = [72; 105; 0x20AC]) as -> by (vm_compute in H1; congruence).
  split; [exact H1|]. apply H2. reflexivity.
Defined.

(** X15. Every encoded message whose decrypted bytes are valid UTF-8 is the
    output of [encrypt] for the plaintext [decrypt] returns, under the
    salt the message carries: encrypting again with that salt gives the
    message back. *)
Theorem encrypt_after_decrypt (S : secret) (salt cipher : buffer) :
  is_salt salt = true ->
  all_bytes cipher = true ->
  Utf8.valid (decrypt_loop (key (constructor S)) salt cipher) = true ->
  exists P : jsstring,
    decrypt (constructor S) (js "0x" ++ hex_encode (salt ++ cipher)) = Normal P
    /\ encrypt (constructor S) salt P = js "0x" ++ hex_encode (salt ++ cipher).
Proof.
  intros Hsalt Hcipher Hvalid.
  apply is_salt_spec in Hsalt as [Hlen Hs].
  pose proof (key_bytes S) as Hk.
  exists (Utf8.decode (decrypt_loop (key (constructor S)) salt cipher)).
  split.
  - rewrite decrypt_normal. unfold recovered_bytes.
    rewrite strip_0x_prefixed.
    rewrite hex_decode_encode by (rewrite all_bytes_app, Hs, Hcipher; reflexivity).
    rewrite take_app_length', drop_app_length' by congruence. reflexivity.
  - unfold encrypt, Buffer_from_utf8.
    rewrite encode_decode_valid by (auto using decrypt_loop_bytes).
    rewrite encrypt_decrypt_loop by assumption. reflexivity.
Qed.

Lemma encrypt_after_decrypt_witness :
  exists P : jsstring,
    decrypt (constructor (SecretString (js "test"))) (js "0x0000000000000000afbf")
    = Normal P
    /\ encrypt (constructor (SecretString (js "test"))) [0; 0; 0; 0; 0; 0; 0; 0] P
       = js "0x0000000000000000afbf".
Proof.
  apply (encrypt_after_decrypt (SecretString (js "test"))
           [0; 0; 0; 0; 0; 0; 0; 0] [0xAF; 0xBF]);
    [reflexivity | reflexivity | vm_compute; reflexivity].
Defined.
